(** * Theron: the non-blocking hybrid work queue

    A shallow embedding of [Theron::Detail::NonBlockingQueue]
    (Include/Theron/Detail/Scheduler/NonBlockingQueue.h) and the properties
    of its push/pop protocol.

    Every public operation touches the caller's own context, which no other
    thread accesses, and at most one critical section on the shared queue.
    An execution of the scheduler is therefore modelled as a sequence of
    operations, each applied atomically to a store holding the scheduler
    object and the context objects: an interleaving of the threads. *)

From stdpp Require Import base option list gmap.

#[local] Set Warnings "-clear-no-such-hyp".

(** ** Pointers *)

(** A context is referred to by the address of the user-allocated
    [ContextType] object. *)
Abbreviation addr := nat (only parsing).

(** [Mailbox *]: the address of a mailbox; [0] is the null pointer. *)
Abbreviation Mailbox_ptr := N (only parsing).

Definition null : Mailbox_ptr := 0%N.

(** ** Outcomes of a call *)

Inductive fault : Set :=
| AssertionFailure   (* THERON_ASSERT on a false condition *)
| SpinsForever       (* Lock() on a lock that will never be released *)
| NullCall           (* call through a yield function pointer never set *)
| BadPointer.        (* context pointer that is not a context object *)

Inductive outcome (A : Type) : Type :=
| Returns (a : A)
| Fails (f : fault).

Arguments Returns {A} a.
Arguments Fails {A} f.

(** ** Collaborators that are not part of the sources *)

(** Modelled from the spec: Theron/Detail/Containers/Queue.h is missing.
    "FIFO Container: intrusive singly-linked first-in-first-out sequence of
    schedulable items; push at tail, pop at head, O(1) both, not internally
    synchronized."  The queue is the sequence of the queued mailbox
    addresses, head first.  [Pop] on an empty queue is never reached from
    [NonBlockingQueue]: both call sites are guarded by [Empty]. *)
Module Queue.

Definition t : Type := list Mailbox_ptr.

Definition ctor : t := [].

Definition Empty (q : t) : bool :=
  match q with
  | [] => true
  | _ :: _ => false
  end.

Definition Push (item : Mailbox_ptr) (q : t) : t := q ++ [item].

Definition Pop (q : t) : Mailbox_ptr * t :=
  match q with
  | [] => (null, [])
  | item :: rest => (item, rest)
  end.

End Queue.

(** Modelled from the spec: Theron/Detail/Threading/SpinLock.h is missing.
    "Mutual-exclusion guard: a spin-wait lock protecting the one queue
    visible to multiple threads."  Between two operations of an interleaving
    the lock is free; an operation that finds it held would spin without
    returning. *)
Module SpinLock.

Record t : Set := mk { held : bool }.

Definition ctor : t := mk false.

Definition Lock (l : t) : outcome t :=
  if held l then Fails SpinsForever else Returns (mk true).

Definition Unlock (l : t) : t := mk false.

End SpinLock.

(** Modelled from the spec: Theron/YieldStrategy.h is missing.
    "one scheduler-construction-time enumerated strategy selector with
    recognized values {Polite, Strong, Aggressive}".  A C++ enumeration
    object can also hold a value that is none of its enumerators; the last
    constructor stands for any such value. *)
Inductive YieldStrategy : Set :=
| YIELD_STRATEGY_POLITE
| YIELD_STRATEGY_STRONG
| YIELD_STRATEGY_AGGRESSIVE
| YIELD_STRATEGY_unrecognized (value : Z).

(** Modelled from the spec: Theron/Detail/Scheduler/YieldPolicy.h is missing.
    The three escalation curves of section 4.2, known here by the identity
    of the function only. *)
Module YieldPolicy.

Inductive YieldFunction : Set :=
| YieldPolite
| YieldStrong
| YieldAggressive.

End YieldPolicy.

(** Modelled from the spec: Theron/Detail/Scheduler/YieldImplementation.h is
    missing.  "Reset() returns the policy to its least-escalated state;
    Execute() performs the current escalation step and advances internal
    state toward the next, more yielding, step."  The policy instance is
    "configured at worker-context initialization time": until then no yield
    function is set.  The steps performed so far are kept in [performed]
    (most recent last) so that the calls made by [Pop] can be observed. *)
Module YieldImplementation.

Import YieldPolicy.

Record t : Set := mk {
  mYieldFunction : option YieldFunction;
  mCounter : N;
  performed : list (YieldFunction * N)
}.

Definition ctor : t := mk None 0 [].

Definition SetYieldFunction (yieldFunction : YieldFunction) (y : t) : t :=
  mk (Some yieldFunction) (mCounter y) (performed y).

Definition Reset (y : t) : t :=
  mk (mYieldFunction y) 0 (performed y).

Definition Execute (y : t) : outcome t :=
  match mYieldFunction y with
  | None => Fails NullCall
  | Some f =>
      Returns (mk (Some f) (mCounter y + 1) (performed y ++ [(f, mCounter y)]))
  end.

End YieldImplementation.

(** ** The objects *)

(** [NonBlockingQueue::ContextType] *)
Record ContextType : Type := mkContext {
  mShared : bool;
  mLocalWorkQueue : Queue.t;
  mYield : YieldImplementation.t
}.

(** [ContextType::ContextType()] *)
Definition ContextType_ctor : ContextType :=
  mkContext false Queue.ctor YieldImplementation.ctor.

(** The data members of [NonBlockingQueue]. *)
Record NonBlockingQueue : Type := mkQueue {
  mYieldStrategy : YieldStrategy;
  mSharedWorkQueueSpinLock : SpinLock.t;
  mSharedWorkQueue : Queue.t
}.

(** [NonBlockingQueue::NonBlockingQueue(yieldStrategy)] *)
Definition NonBlockingQueue_ctor (yieldStrategy : YieldStrategy) : NonBlockingQueue :=
  mkQueue yieldStrategy SpinLock.ctor Queue.ctor.

(** The store: one scheduler object ([this]) and the context objects by
    address. *)
Record Store : Type := mkStore {
  this : NonBlockingQueue;
  contexts : gmap addr ContextType
}.

(** ** The monad of member functions: state and faults *)

Definition M (A : Type) : Type := Store → outcome (A * Store).

#[global] Instance M_ret : MRet M := λ A a s, Returns (a, s).

#[global] Instance M_bind : MBind M := λ A B f m s,
  match m s with
  | Returns (a, s') => f a s'
  | Fails e => Fails e
  end.

Definition fail {A} (e : fault) : M A := λ _, Fails e.

(** [context->field] *)
Definition load {A} (context : addr) (field : ContextType → A) : M A := λ s,
  match contexts s !! context with
  | Some c => Returns (field c, s)
  | None => Fails BadPointer
  end.

(** [context->field = ...], as an update of the whole object *)
Definition update (context : addr) (f : ContextType → ContextType) : M unit := λ s,
  match contexts s !! context with
  | Some c => Returns ((), mkStore (this s) (<[context := f c]> (contexts s)))
  | None => Fails BadPointer
  end.

(** read of a data member of [this] *)
Definition member {A} (field : NonBlockingQueue → A) : M A := λ s,
  Returns (field (this s), s).

Definition update_this (f : NonBlockingQueue → NonBlockingQueue) : M unit := λ s,
  Returns ((), mkStore (f (this s)) (contexts s)).

Definition set_mShared (b : bool) (c : ContextType) : ContextType :=
  mkContext b (mLocalWorkQueue c) (mYield c).

Definition set_mLocalWorkQueue (q : Queue.t) (c : ContextType) : ContextType :=
  mkContext (mShared c) q (mYield c).

Definition set_mYield (y : YieldImplementation.t) (c : ContextType) : ContextType :=
  mkContext (mShared c) (mLocalWorkQueue c) y.

Definition set_mSharedWorkQueueSpinLock (l : SpinLock.t) (q : NonBlockingQueue) : NonBlockingQueue :=
  mkQueue (mYieldStrategy q) l (mSharedWorkQueue q).

Definition set_mSharedWorkQueue (w : Queue.t) (q : NonBlockingQueue) : NonBlockingQueue :=
  mkQueue (mYieldStrategy q) (mSharedWorkQueueSpinLock q) w.

(** [THERON_ASSERT(condition)], as in a build with assertions enabled *)
Definition THERON_ASSERT (condition : bool) : M unit :=
  if condition then mret () else fail AssertionFailure.

(** [mSharedWorkQueueSpinLock.Lock()] *)
Definition mSharedWorkQueueSpinLock_Lock : M unit :=
  l ← member mSharedWorkQueueSpinLock;
  match SpinLock.Lock l with
  | Returns l' => update_this (set_mSharedWorkQueueSpinLock l')
  | Fails e => fail e
  end.

(** [mSharedWorkQueueSpinLock.Unlock()] *)
Definition mSharedWorkQueueSpinLock_Unlock : M unit :=
  l ← member mSharedWorkQueueSpinLock;
  update_this (set_mSharedWorkQueueSpinLock (SpinLock.Unlock l)).

(** [mSharedWorkQueue.Push(mailbox)] *)
Definition mSharedWorkQueue_Push (mailbox : Mailbox_ptr) : M unit :=
  update_this (λ q, set_mSharedWorkQueue (Queue.Push mailbox (mSharedWorkQueue q)) q).

(** [mSharedWorkQueue.Pop()] *)
Definition mSharedWorkQueue_Pop : M Mailbox_ptr :=
  w ← member mSharedWorkQueue;
  update_this (set_mSharedWorkQueue (Queue.Pop w).2);;
  mret (Queue.Pop w).1.

(** [context->mLocalWorkQueue.Push(mailbox)] *)
Definition mLocalWorkQueue_Push (context : addr) (mailbox : Mailbox_ptr) : M unit :=
  update context (λ c, set_mLocalWorkQueue (Queue.Push mailbox (mLocalWorkQueue c)) c).

(** [context->mLocalWorkQueue.Pop()] *)
Definition mLocalWorkQueue_Pop (context : addr) : M Mailbox_ptr :=
  w ← load context mLocalWorkQueue;
  update context (set_mLocalWorkQueue (Queue.Pop w).2);;
  mret (Queue.Pop w).1.

(** [context->mYield.SetYieldFunction(f)] *)
Definition mYield_SetYieldFunction (context : addr) (f : YieldPolicy.YieldFunction) : M unit :=
  update context (λ c, set_mYield (YieldImplementation.SetYieldFunction f (mYield c)) c).

(** [context->mYield.Reset()] *)
Definition mYield_Reset (context : addr) : M unit :=
  update context (λ c, set_mYield (YieldImplementation.Reset (mYield c)) c).

(** [context->mYield.Execute()] *)
Definition mYield_Execute (context : addr) : M unit :=
  y ← load context mYield;
  match YieldImplementation.Execute y with
  | Returns y' => update context (set_mYield y')
  | Fails e => fail e
  end.

(** ** The member functions of [NonBlockingQueue] *)

Definition InitializeSharedContext (context : addr) : M unit :=
  update context (set_mShared true).

Definition InitializeWorkerContext (context : addr) : M unit :=
  (* Only worker threads should call this method. *)
  update context (set_mShared false);;
  yieldStrategy ← member mYieldStrategy;
  match yieldStrategy with
  | YIELD_STRATEGY_POLITE => mYield_SetYieldFunction context YieldPolicy.YieldPolite
  | YIELD_STRATEGY_STRONG => mYield_SetYieldFunction context YieldPolicy.YieldStrong
  | YIELD_STRATEGY_AGGRESSIVE => mYield_SetYieldFunction context YieldPolicy.YieldAggressive
  | _ (* default: *) => mYield_SetYieldFunction context YieldPolicy.YieldPolite
  end.

(** The parameter is unnamed in the source: the pointer is not dereferenced. *)
Definition ReleaseSharedContext (_ : addr) : M unit := mret ().

Definition ReleaseWorkerContext (_ : addr) : M unit := mret ().

Definition Empty (context : addr) : M bool :=
  (* Check the context's local queue. *)
  shared ← load context mShared;
  localWork ←
    (if negb shared
     then (w ← load context mLocalWorkQueue; mret (negb (Queue.Empty w)))
     else mret false);
  if (localWork : bool) then mret false
  else
    (* Check the shared work queue. *)
    mSharedWorkQueueSpinLock_Lock;;
    w ← member mSharedWorkQueue;
    let empty := if negb (Queue.Empty w) then false else true in
    mSharedWorkQueueSpinLock_Unlock;;
    mret empty.

Definition WakeAll : M unit := mret ().

Definition Push (context : addr) (mailbox : Mailbox_ptr) (localThread : bool) : M unit :=
  shared ← load context mShared;
  if localThread && negb shared then
    (* Push the mailbox onto the calling thread's local work queue. *)
    mLocalWorkQueue_Push context mailbox
  else
    (* Push the mailbox onto the shared work queue. *)
    mSharedWorkQueueSpinLock_Lock;;
    mSharedWorkQueue_Push mailbox;;
    mSharedWorkQueueSpinLock_Unlock.

Definition Pop (context : addr) : M Mailbox_ptr :=
  shared ← load context mShared;
  THERON_ASSERT (bool_decide (shared = false));;
  (* We only check the shared queue once the local queue is empty. *)
  localQueue ← load context mLocalWorkQueue;
  mailbox ←
    (if Queue.Empty localQueue then
       mSharedWorkQueueSpinLock_Lock;;
       sharedQueue ← member mSharedWorkQueue;
       popped ←
         (if negb (Queue.Empty sharedQueue)
          then mSharedWorkQueue_Pop
          else mret null);
       mSharedWorkQueueSpinLock_Unlock;;
       mret popped
     else
       mLocalWorkQueue_Pop context);
  if bool_decide (mailbox ≠ null) then
    mYield_Reset context;;
    mret mailbox
  else
    (* Progressive backoff. *)
    mYield_Execute context;;
    mret null.

(** ** Executions: sequences of calls on one scheduler *)

(** A call of a public member function, by any thread. *)
Inductive Op : Set :=
| OpInitializeSharedContext (context : addr)
| OpInitializeWorkerContext (context : addr)
| OpReleaseSharedContext (context : addr)
| OpReleaseWorkerContext (context : addr)
| OpEmpty (context : addr)
| OpWakeAll
| OpPush (context : addr) (mailbox : Mailbox_ptr) (localThread : bool)
| OpPop (context : addr).

(** What the call returned. *)
Inductive Ret : Set :=
| RetVoid
| RetBool (b : bool)
| RetMailbox (mailbox : Mailbox_ptr).

Definition call (o : Op) : M Ret :=
  match o with
  | OpInitializeSharedContext c => InitializeSharedContext c;; mret RetVoid
  | OpInitializeWorkerContext c => InitializeWorkerContext c;; mret RetVoid
  | OpReleaseSharedContext c => ReleaseSharedContext c;; mret RetVoid
  | OpReleaseWorkerContext c => ReleaseWorkerContext c;; mret RetVoid
  | OpEmpty c => b ← Empty c; mret (RetBool b)
  | OpWakeAll => WakeAll;; mret RetVoid
  | OpPush c mailbox localThread => Push c mailbox localThread;; mret RetVoid
  | OpPop c => mailbox ← Pop c; mret (RetMailbox mailbox)
  end.

(** The history of an execution: each call with its result, in order. *)
Abbreviation History := (list (Op * Ret)) (only parsing).

Fixpoint run (ops : list Op) : M History :=
  match ops with
  | [] => mret []
  | o :: ops' =>
      r ← call o;
      h ← run ops';
      mret ((o, r) :: h)
  end.

(** The mailboxes handed to [Push], in call order. *)
Fixpoint pushed (h : History) : list Mailbox_ptr :=
  match h with
  | [] => []
  | (OpPush _ mailbox _, _) :: h' => mailbox :: pushed h'
  | _ :: h' => pushed h'
  end.

(** The mailboxes returned by the successful calls of [Pop], in call order. *)
Fixpoint popped (h : History) : list Mailbox_ptr :=
  match h with
  | [] => []
  | (OpPop _, RetMailbox mailbox) :: h' =>
      if bool_decide (mailbox ≠ null) then mailbox :: popped h' else popped h'
  | _ :: h' => popped h'
  end.

(** How many times a mailbox occurs in a sequence of mailboxes. *)
Fixpoint occurrences (mailbox : Mailbox_ptr) (l : list Mailbox_ptr) : nat :=
  match l with
  | [] => 0
  | x :: l' => (if decide (x = mailbox) then 1 else 0) + occurrences mailbox l'
  end.

(** The mailboxes held in the local queues of all contexts. *)
Definition local_items (cs : gmap addr ContextType) : list Mailbox_ptr :=
  map_to_list cs ≫= (λ kc, mLocalWorkQueue kc.2).

(** All queued mailboxes: the shared queue and every local queue. *)
Definition queued (s : Store) : list Mailbox_ptr :=
  mSharedWorkQueue (this s) ++ local_items (contexts s).

Definition lock_free (s : Store) : Prop :=
  SpinLock.held (mSharedWorkQueueSpinLock (this s)) = false.

Definition is_Pop (o : Op) : Prop :=
  match o with
  | OpPop _ => True
  | _ => False
  end.

(** The queues can be drained by calls of [Pop]: every context that holds
    local work may call [Pop], and so may some context when the shared
    queue holds work. *)
Definition drainable (s : Store) : Prop :=
  lock_free s
  ∧ (∀ c ctx, contexts s !! c = Some ctx → mLocalWorkQueue ctx ≠ [] →
              mShared ctx = false)
  ∧ (mSharedWorkQueue (this s) ≠ [] →
     ∃ c ctx, contexts s !! c = Some ctx ∧ mShared ctx = false).

(** A call that pushes nothing and does not turn context [c] into the shared
    context. *)
Definition idle (c : addr) (o : Op) : Prop :=
  match o with
  | OpPush _ _ _ => False
  | OpInitializeSharedContext c' => c' ≠ c
  | _ => True
  end.

(** A worker context: initialised by [InitializeWorkerContext]. *)
Definition is_worker (c : ContextType) : Prop :=
  mShared c = false ∧ is_Some (YieldImplementation.mYieldFunction (mYield c)).

(** A scheduler as constructed, with user-allocated contexts at the given
    addresses, none of them initialised yet. *)
Definition fresh (yieldStrategy : YieldStrategy) (addrs : gset addr) : Store :=
  mkStore (NonBlockingQueue_ctor yieldStrategy) (gset_to_gmap ContextType_ctor addrs).

(** Section 4.2 and "Configuration surface": the escalation curve that
    belongs to a strategy selector, Polite "for any unrecognized value". *)
Definition curve_of (yieldStrategy : YieldStrategy) : YieldPolicy.YieldFunction :=
  match yieldStrategy with
  | YIELD_STRATEGY_STRONG => YieldPolicy.YieldStrong
  | YIELD_STRATEGY_AGGRESSIVE => YieldPolicy.YieldAggressive
  | YIELD_STRATEGY_POLITE | YIELD_STRATEGY_unrecognized _ => YieldPolicy.YieldPolite
  end.

(** ** The caller's contract *)

(** Section 4.1: a context is initialised once, as the shared context or as
    a worker context, before it is used; [Pop] is called on worker contexts
    only.  [shared] and [workers] are the contexts initialised so far. *)
Fixpoint contract (shared workers : gset addr) (ops : list Op) : bool :=
  match ops with
  | [] => true
  | OpInitializeSharedContext c :: ops' =>
      bool_decide ((c ∉ shared) ∧ (c ∉ workers)) && contract ({[c]} ∪ shared) workers ops'
  | OpInitializeWorkerContext c :: ops' =>
      bool_decide ((c ∉ shared) ∧ (c ∉ workers)) && contract shared ({[c]} ∪ workers) ops'
  | OpPush c _ _ :: ops' | OpEmpty c :: ops' =>
      bool_decide (c ∈ shared ∨ c ∈ workers) && contract shared workers ops'
  | OpPop c :: ops' =>
      bool_decide (c ∈ workers) && contract shared workers ops'
  | _ :: ops' => contract shared workers ops'
  end.

(** Context [c] is a worker that has no work to find: its own queue and
    the shared queue are empty. *)
Definition starved (c : addr) (s : Store) : Prop :=
  ∃ ctx, contexts s !! c = Some ctx ∧ is_worker ctx
         ∧ mLocalWorkQueue ctx = [] ∧ mSharedWorkQueue (this s) = []
         ∧ lock_free s.

(** What the contract maintains: the lock is free between calls, the
    contexts initialised as shared carry the flag and hold no local work,
    the worker contexts do not carry the flag, and a context not yet
    initialised is as constructed in these respects. *)
Definition kept (shared workers : gset addr) (s : Store) : Prop :=
  lock_free s ∧
  ∀ c ctx, contexts s !! c = Some ctx →
    (c ∈ shared → mShared ctx = true ∧ mLocalWorkQueue ctx = [])
    ∧ (c ∈ workers → mShared ctx = false)
    ∧ (c ∉ shared → c ∉ workers → mShared ctx = false ∧ mLocalWorkQueue ctx = []).

(** The stores a client that keeps the contract can reach. *)
Definition reachable (s : Store) : Prop :=
  ∃ yieldStrategy addrs ops h,
    contract ∅ ∅ ops = true ∧ run ops (fresh yieldStrategy addrs) = Returns (h, s).

(** ** Vocabulary for executions *)

(** The context a call is made on. *)
Definition op_context (o : Op) : option addr :=
  match o with
  | OpInitializeSharedContext c | OpInitializeWorkerContext c
  | OpReleaseSharedContext c | OpReleaseWorkerContext c
  | OpEmpty c | OpPush c _ _ | OpPop c => Some c
  | OpWakeAll => None
  end.

Definition is_initialiser (o : Op) : Prop :=
  match o with
  | OpInitializeSharedContext _ | OpInitializeWorkerContext _ => True
  | _ => False
  end.

Definition is_Push_or_Pop (o : Op) : Prop :=
  match o with
  | OpPush _ _ _ | OpPop _ => True
  | _ => False
  end.

(** A call that is not a [Push] with the local-affinity hint. *)
Definition without_hint (o : Op) : Prop :=
  match o with
  | OpPush _ _ localThread => localThread = false
  | _ => True
  end.

(** A call that is neither a [Push] without the hint nor
    [InitializeSharedContext]. *)
Definition local_traffic (o : Op) : Prop :=
  match o with
  | OpPush _ _ localThread => localThread = true
  | OpInitializeSharedContext _ => False
  | _ => True
  end.

(** The mailboxes handed to [Push] through one context, in call order. *)
Fixpoint pushed_by (context : addr) (h : History) : list Mailbox_ptr :=
  match h with
  | [] => []
  | (OpPush c mailbox _, _) :: h' =>
      if decide (c = context) then mailbox :: pushed_by context h'
      else pushed_by context h'
  | _ :: h' => pushed_by context h'
  end.

(** The mailboxes returned by the successful calls of [Pop] on one context,
    in call order. *)
Fixpoint popped_by (context : addr) (h : History) : list Mailbox_ptr :=
  match h with
  | [] => []
  | (OpPop c, RetMailbox mailbox) :: h' =>
      if decide (c = context ∧ mailbox ≠ null)
      then mailbox :: popped_by context h' else popped_by context h'
  | _ :: h' => popped_by context h'
  end.

(** ** Sanity checks on concrete executions *)

(** The store an execution ends in ([d] when it does not run to its end). *)
Definition final (o : outcome (History * Store)) (d : Store) : Store :=
  match o with
  | Returns (_, s) => s
  | Fails _ => d
  end.

(** Two workers (addresses 1 and 2) and the shared context (address 0). *)
Definition demo : Store :=
  final (run [OpInitializeSharedContext 0; OpInitializeWorkerContext 1;
              OpInitializeWorkerContext 2]
             (fresh YIELD_STRATEGY_STRONG {[0; 1; 2]}))
        (fresh YIELD_STRATEGY_STRONG ∅).

(** [demo] with mailboxes 8 and 9 in the queue of worker 1 and mailbox 5 in
    the shared queue. *)
Definition busy : Store :=
  final (run [OpPush 1 8%N true; OpPush 1 9%N true; OpPush 0 5%N true] demo) demo.

(** The results of an execution, when it runs to its end. *)
Definition results (o : outcome (History * Store)) : option (list Ret) :=
  match o with
  | Returns (h, _) => Some (h.*2)
  | Fails _ => None
  end.

Example scenario_A_B :
  results (run [OpPush 1 1%N true; OpPush 1 2%N true; OpPush 1 3%N true;
                OpPush 0 4%N true;
                OpPop 1; OpPop 1; OpPop 2; OpPop 1; OpPop 1; OpPop 2; OpEmpty 1] demo)
  = Some (replicate 4 RetVoid
          ++ (RetMailbox <$> [1%N; 2%N; 4%N; 3%N; null; null]) ++ [RetBool true]).
Proof. vm_compute. reflexivity. Qed.

Example pop_on_shared_context_asserts :
  run [OpPop 0] demo = Fails AssertionFailure.
Proof. vm_compute. reflexivity. Qed.

Example pop_before_initialisation :
  run [OpPop 7] (fresh YIELD_STRATEGY_POLITE {[7]}) = Fails NullCall.
Proof. vm_compute. reflexivity. Qed.

(** A null pointer handed to [Push] is queued like a mailbox; the [Pop] that
    takes it out returns it, which its caller reads as "no mailbox". *)
Example pushed_null_pointer :
  results (run [OpPush 1 null true; OpPush 1 3%N true; OpPop 1; OpPop 1; OpPop 1] demo)
  = Some [RetVoid; RetVoid; RetMailbox null; RetMailbox 3%N; RetMailbox null].
Proof. vm_compute. reflexivity. Qed.

(** * Properties *)

(** ** Running the member functions *)

Lemma bind_Returns {A B} (m : M A) (f : A → M B) s a s' :
  m s = Returns (a, s') → (m ≫= f) s = f a s'.
Proof. intros E. unfold mbind, M_bind. by rewrite E. Qed.

Lemma bind_Fails {A B} (m : M A) (f : A → M B) s e :
  m s = Fails e → (m ≫= f) s = Fails e.
Proof. intros E. unfold mbind, M_bind. by rewrite E. Qed.

Lemma bind_assoc {A B C} (m : M A) (f : A → M B) (g : B → M C) s :
  ((m ≫= f) ≫= g) s = (m ≫= λ a, f a ≫= g) s.
Proof. unfold mbind, M_bind. by destruct (m s) as [[a s1]|e]. Qed.

Lemma bind_inv {A B} (m : M A) (f : A → M B) s b s' :
  (m ≫= f) s = Returns (b, s') →
  ∃ a s1, m s = Returns (a, s1) ∧ f a s1 = Returns (b, s').
Proof.
  unfold mbind, M_bind. destruct (m s) as [[a s1]|e]; [|done]. eauto.
Qed.

Lemma load_Returns {A} c (field : ContextType → A) s ctx :
  contexts s !! c = Some ctx → load c field s = Returns (field ctx, s).
Proof. intros E. unfold load. by rewrite E. Qed.

Lemma update_Returns c f s ctx :
  contexts s !! c = Some ctx →
  update c f s = Returns ((), mkStore (this s) (<[c := f ctx]> (contexts s))).
Proof. intros E. unfold update. by rewrite E. Qed.


Lemma Lock_Returns s :
  lock_free s →
  mSharedWorkQueueSpinLock_Lock s
  = Returns ((), mkStore (set_mSharedWorkQueueSpinLock (SpinLock.mk true) (this s))
                         (contexts s)).
Proof.
  unfold lock_free, mSharedWorkQueueSpinLock_Lock, SpinLock.Lock. intros E.
  unfold mbind, M_bind, member. by rewrite E.
Qed.

Lemma Lock_held s :
  ¬ lock_free s → mSharedWorkQueueSpinLock_Lock s = Fails SpinsForever.
Proof.
  unfold lock_free, mSharedWorkQueueSpinLock_Lock, SpinLock.Lock. intros E.
  unfold mbind, M_bind, member.
  by destruct (SpinLock.held (mSharedWorkQueueSpinLock (this s))).
Qed.

Lemma store_eta s : mkStore (this s) (contexts s) = s.
Proof. by destruct s. Qed.

(** Steps a monadic computation through the facts known about the store. *)
Ltac exec :=
  repeat first
    [ erewrite bind_Returns;
        [| first [ eapply load_Returns; simplify_map_eq; done
                 | eapply update_Returns; simplify_map_eq; done
                 | eapply Lock_Returns; done
                 | reflexivity ] ]
    | progress cbn [this contexts mShared mLocalWorkQueue mYield negb andb
                    Queue.Empty Queue.Pop Queue.Push fst snd
                    set_mShared set_mLocalWorkQueue set_mYield
                    set_mSharedWorkQueue set_mSharedWorkQueueSpinLock
                    mSharedWorkQueue mSharedWorkQueueSpinLock mYieldStrategy]
    | erewrite load_Returns by (simplify_map_eq; done)
    | erewrite update_Returns by (simplify_map_eq; done)
    | rewrite insert_insert_eq
    | rewrite bind_assoc ].

(** Exposes the fields of a store whose lock is known to be free. *)
Ltac open_store s :=
  destruct s as [[? [?] ?] ?]; unfold lock_free in *; cbn in *; subst.

(** Unfolds the field updates that remain in a final store. *)
Ltac norm :=
  unfold mret, M_ret, set_mYield, set_mLocalWorkQueue, set_mShared,
    set_mSharedWorkQueue, set_mSharedWorkQueueSpinLock;
  cbn [this contexts mShared mLocalWorkQueue mYield
       mSharedWorkQueue mSharedWorkQueueSpinLock mYieldStrategy].

(** *** Push *)

Lemma Push_local s c ctx mailbox :
  contexts s !! c = Some ctx → mShared ctx = false →
  Push c mailbox true s
  = Returns ((), mkStore (this s)
       (<[c := set_mLocalWorkQueue (mLocalWorkQueue ctx ++ [mailbox]) ctx]> (contexts s))).
Proof.
  intros Hc Hs. unfold Push, mLocalWorkQueue_Push. exec. rewrite Hs. by exec.
Qed.

Lemma Push_shared s c ctx mailbox localThread :
  contexts s !! c = Some ctx → localThread && negb (mShared ctx) = false →
  lock_free s →
  Push c mailbox localThread s
  = Returns ((), mkStore
       (set_mSharedWorkQueue (mSharedWorkQueue (this s) ++ [mailbox]) (this s))
       (contexts s)).
Proof.
  intros Hc Hs Hl. unfold Push. exec. rewrite Hs. exec.
  by open_store s.
Qed.

(** *** Pop *)

Lemma Pop_on_shared s c ctx :
  contexts s !! c = Some ctx → mShared ctx = true →
  Pop c s = Fails AssertionFailure.
Proof. intros Hc Hs. unfold Pop. exec. by rewrite Hs. Qed.

Lemma Pop_bad_pointer s c :
  contexts s !! c = None → Pop c s = Fails BadPointer.
Proof. intros Hc. unfold Pop. apply bind_Fails. unfold load. by rewrite Hc. Qed.

Lemma Pop_local s c ctx mailbox rest :
  contexts s !! c = Some ctx → mShared ctx = false →
  mLocalWorkQueue ctx = mailbox :: rest → mailbox ≠ null →
  Pop c s
  = Returns (mailbox, mkStore (this s)
       (<[c := mkContext false rest (YieldImplementation.Reset (mYield ctx))]>
          (contexts s))).
Proof.
  intros Hc Hs Hq Hm. unfold Pop. exec. rewrite Hs. exec. rewrite Hq. exec.
  unfold mLocalWorkQueue_Pop. exec. rewrite Hq. exec.
  rewrite bool_decide_eq_true_2 by done. unfold mYield_Reset. exec.
  norm. by rewrite Hs.
Qed.

Lemma Pop_local_null s c ctx rest f :
  contexts s !! c = Some ctx → mShared ctx = false →
  mLocalWorkQueue ctx = null :: rest →
  YieldImplementation.mYieldFunction (mYield ctx) = Some f →
  Pop c s
  = Returns (null, mkStore (this s)
       (<[c := mkContext false rest
                 (YieldImplementation.mk (Some f)
                    (YieldImplementation.mCounter (mYield ctx) + 1)
                    (YieldImplementation.performed (mYield ctx)
                       ++ [(f, YieldImplementation.mCounter (mYield ctx))]))]>
          (contexts s))).
Proof.
  intros Hc Hs Hq Hf. unfold Pop. exec. rewrite Hs. exec. rewrite Hq. exec.
  unfold mLocalWorkQueue_Pop. exec. rewrite Hq. exec.
  rewrite bool_decide_eq_false_2 by (by intros []). unfold mYield_Execute. exec.
  unfold YieldImplementation.Execute. rewrite Hf. exec.
  norm. by rewrite Hs.
Qed.

Lemma Pop_shared s c ctx mailbox rest :
  contexts s !! c = Some ctx → mShared ctx = false →
  mLocalWorkQueue ctx = [] →
  mSharedWorkQueue (this s) = mailbox :: rest → mailbox ≠ null →
  lock_free s →
  Pop c s
  = Returns (mailbox, mkStore (set_mSharedWorkQueue rest (this s))
       (<[c := mkContext false [] (YieldImplementation.Reset (mYield ctx))]>
          (contexts s))).
Proof.
  intros Hc Hs Hq Hw Hm Hl. unfold Pop. exec. rewrite Hs. exec. rewrite Hq. exec.
  rewrite Hw. exec. unfold mSharedWorkQueue_Pop. exec. rewrite Hw. exec.
  rewrite bool_decide_eq_true_2 by done. unfold mYield_Reset. exec.
  norm. rewrite Hs, ?Hq. by open_store s.
Qed.

Lemma Pop_shared_null s c ctx rest f :
  contexts s !! c = Some ctx → mShared ctx = false →
  mLocalWorkQueue ctx = [] →
  mSharedWorkQueue (this s) = null :: rest →
  YieldImplementation.mYieldFunction (mYield ctx) = Some f →
  lock_free s →
  Pop c s
  = Returns (null, mkStore (set_mSharedWorkQueue rest (this s))
       (<[c := mkContext false []
                 (YieldImplementation.mk (Some f)
                    (YieldImplementation.mCounter (mYield ctx) + 1)
                    (YieldImplementation.performed (mYield ctx)
                       ++ [(f, YieldImplementation.mCounter (mYield ctx))]))]>
          (contexts s))).
Proof.
  intros Hc Hs Hq Hw Hf Hl. unfold Pop. exec. rewrite Hs. exec. rewrite Hq. exec.
  rewrite Hw. exec. unfold mSharedWorkQueue_Pop. exec. rewrite Hw. exec.
  rewrite bool_decide_eq_false_2 by (by intros []). unfold mYield_Execute. exec.
  unfold YieldImplementation.Execute. rewrite Hf. exec.
  norm. rewrite Hs, ?Hq. by open_store s.
Qed.

Lemma Pop_none s c ctx f :
  contexts s !! c = Some ctx → mShared ctx = false →
  mLocalWorkQueue ctx = [] → mSharedWorkQueue (this s) = [] →
  YieldImplementation.mYieldFunction (mYield ctx) = Some f →
  lock_free s →
  Pop c s
  = Returns (null, mkStore (this s)
       (<[c := mkContext false []
                 (YieldImplementation.mk (Some f)
                    (YieldImplementation.mCounter (mYield ctx) + 1)
                    (YieldImplementation.performed (mYield ctx)
                       ++ [(f, YieldImplementation.mCounter (mYield ctx))]))]>
          (contexts s))).
Proof.
  intros Hc Hs Hq Hw Hf Hl. unfold Pop. exec. rewrite Hs. exec. rewrite Hq. exec.
  rewrite Hw. exec.
  rewrite bool_decide_eq_false_2 by (by intros []). unfold mYield_Execute. exec.
  unfold YieldImplementation.Execute. rewrite Hf. exec.
  norm. rewrite Hs, ?Hq. by open_store s.
Qed.

Lemma Pop_local_null_unconfigured s c ctx rest :
  contexts s !! c = Some ctx → mShared ctx = false →
  mLocalWorkQueue ctx = null :: rest →
  YieldImplementation.mYieldFunction (mYield ctx) = None →
  Pop c s = Fails NullCall.
Proof.
  intros Hc Hs Hq Hf. unfold Pop. exec. rewrite Hs. exec. rewrite Hq. exec.
  unfold mLocalWorkQueue_Pop. exec. rewrite Hq. exec.
  rewrite bool_decide_eq_false_2 by (by intros []). unfold mYield_Execute. exec.
  unfold YieldImplementation.Execute. by rewrite Hf.
Qed.

Lemma Pop_shared_null_unconfigured s c ctx rest :
  contexts s !! c = Some ctx → mShared ctx = false →
  mLocalWorkQueue ctx = [] →
  mSharedWorkQueue (this s) = null :: rest →
  YieldImplementation.mYieldFunction (mYield ctx) = None →
  lock_free s →
  Pop c s = Fails NullCall.
Proof.
  intros Hc Hs Hq Hw Hf Hl. unfold Pop. exec. rewrite Hs. exec. rewrite Hq. exec.
  rewrite Hw. exec. unfold mSharedWorkQueue_Pop. exec. rewrite Hw. exec.
  rewrite bool_decide_eq_false_2 by (by intros []). unfold mYield_Execute. exec.
  unfold YieldImplementation.Execute. by rewrite Hf.
Qed.

Lemma Pop_none_unconfigured s c ctx :
  contexts s !! c = Some ctx → mShared ctx = false →
  mLocalWorkQueue ctx = [] → mSharedWorkQueue (this s) = [] →
  YieldImplementation.mYieldFunction (mYield ctx) = None →
  lock_free s →
  Pop c s = Fails NullCall.
Proof.
  intros Hc Hs Hq Hw Hf Hl. unfold Pop. exec. rewrite Hs. exec. rewrite Hq. exec.
  rewrite Hw. exec.
  rewrite bool_decide_eq_false_2 by (by intros []). unfold mYield_Execute. exec.
  unfold YieldImplementation.Execute. by rewrite Hf.
Qed.

(** *** Empty *)

Lemma Empty_local_work s c ctx :
  contexts s !! c = Some ctx → mShared ctx = false →
  mLocalWorkQueue ctx ≠ [] →
  Empty c s = Returns (false, s).
Proof.
  intros Hc Hs Hq. unfold Empty. exec. rewrite Hs. exec.
  destruct (mLocalWorkQueue ctx); [done|]. by exec.
Qed.

Lemma Empty_shared_queue s c ctx :
  contexts s !! c = Some ctx →
  mShared ctx = true ∨ mLocalWorkQueue ctx = [] →
  lock_free s →
  Empty c s = Returns (Queue.Empty (mSharedWorkQueue (this s)), s).
Proof.
  intros Hc Hs Hl. unfold Empty. exec.
  erewrite (bind_Returns _ _ s false s).
  - exec. open_store s. by destruct (Queue.Empty _).
  - destruct (mShared ctx); [done|]. destruct Hs as [|Hq]; [done|].
    exec. by rewrite Hq.
Qed.

(** *** The initialisers *)

Lemma InitializeSharedContext_Returns s c ctx :
  contexts s !! c = Some ctx →
  InitializeSharedContext c s
  = Returns ((), mkStore (this s) (<[c := set_mShared true ctx]> (contexts s))).
Proof. intros Hc. unfold InitializeSharedContext. by exec. Qed.

Lemma InitializeWorkerContext_Returns s c ctx :
  contexts s !! c = Some ctx →
  InitializeWorkerContext c s
  = Returns ((), mkStore (this s)
       (<[c := mkContext false (mLocalWorkQueue ctx)
                 (YieldImplementation.SetYieldFunction
                    (curve_of (mYieldStrategy (this s))) (mYield ctx))]>
          (contexts s))).
Proof.
  intros Hc. unfold InitializeWorkerContext. exec.
  destruct (mYieldStrategy (this s)); unfold mYield_SetYieldFunction; by exec.
Qed.

(** *** What a call that returns has done *)

Lemma update_inv c f s u s' :
  update c f s = Returns (u, s') →
  ∃ ctx, contexts s !! c = Some ctx
         ∧ s' = mkStore (this s) (<[c := f ctx]> (contexts s)).
Proof.
  unfold update. destruct (contexts s !! c) as [ctx|]; [|done].
  intros [= <- <-]. eauto.
Qed.

Lemma InitializeSharedContext_inv s c u s' :
  InitializeSharedContext c s = Returns (u, s') →
  ∃ ctx, contexts s !! c = Some ctx
         ∧ s' = mkStore (this s) (<[c := set_mShared true ctx]> (contexts s)).
Proof. apply update_inv. Qed.

Lemma InitializeWorkerContext_inv s c u s' :
  InitializeWorkerContext c s = Returns (u, s') →
  ∃ ctx, contexts s !! c = Some ctx
         ∧ s' = mkStore (this s)
             (<[c := mkContext false (mLocalWorkQueue ctx)
                       (YieldImplementation.SetYieldFunction
                          (curve_of (mYieldStrategy (this s))) (mYield ctx))]>
                (contexts s)).
Proof.
  intros H. destruct (contexts s !! c) as [ctx|] eqn:Hc.
  - rewrite (InitializeWorkerContext_Returns _ _ _ Hc) in H.
    injection H as <-. eauto.
  - unfold InitializeWorkerContext in H. erewrite bind_Fails in H; [done|].
    unfold update. by rewrite Hc.
Qed.

Lemma Push_inv s c mailbox localThread u s' :
  Push c mailbox localThread s = Returns (u, s') →
  ∃ ctx, contexts s !! c = Some ctx ∧
    ((localThread = true ∧ mShared ctx = false ∧
      s' = mkStore (this s)
             (<[c := set_mLocalWorkQueue (mLocalWorkQueue ctx ++ [mailbox]) ctx]>
                (contexts s)))
     ∨ (localThread && negb (mShared ctx) = false ∧ lock_free s ∧
        s' = mkStore
               (set_mSharedWorkQueue (mSharedWorkQueue (this s) ++ [mailbox]) (this s))
               (contexts s))).
Proof.
  intros H. destruct (contexts s !! c) as [ctx|] eqn:Hc.
  - exists ctx. split; [done|].
    destruct (localThread && negb (mShared ctx)) eqn:Hb.
    + apply andb_true_iff in Hb as [-> Hs%negb_true_iff].
      rewrite (Push_local _ _ _ _ Hc Hs) in H. injection H as <-. by left.
    + destruct (decide (lock_free s)) as [Hl|Hl].
      * rewrite (Push_shared _ _ _ _ _ Hc Hb Hl) in H. injection H as <-. by right.
      * unfold Push in H. erewrite bind_Returns in H by by apply load_Returns.
        rewrite Hb in H. erewrite bind_Fails in H; [done|]. by apply Lock_held.
  - unfold Push in H. erewrite bind_Fails in H; [done|]. unfold load. by rewrite Hc.
Qed.

Lemma Pop_lock_held s c ctx :
  contexts s !! c = Some ctx → mShared ctx = false →
  mLocalWorkQueue ctx = [] → ¬ lock_free s →
  Pop c s = Fails SpinsForever.
Proof.
  intros Hc Hs Hq Hl. unfold Pop. exec. rewrite Hs. exec. rewrite Hq. exec.
  erewrite bind_Fails; [done|]. by apply Lock_held.
Qed.

(** The yield state a call of [Pop] leaves behind: reset when a mailbox is
    returned, one escalation step further when not. *)
Lemma Execute_Some y f :
  YieldImplementation.mYieldFunction y = Some f →
  YieldImplementation.Execute y
  = Returns (YieldImplementation.mk (Some f) (YieldImplementation.mCounter y + 1)
               (YieldImplementation.performed y
                  ++ [(f, YieldImplementation.mCounter y)])).
Proof. intros Hf. unfold YieldImplementation.Execute. by rewrite Hf. Qed.

Lemma Pop_inv s c mailbox s' :
  Pop c s = Returns (mailbox, s') →
  ∃ ctx y, contexts s !! c = Some ctx ∧ mShared ctx = false ∧
    (if decide (mailbox = null)
     then YieldImplementation.Execute (mYield ctx) = Returns y
     else y = YieldImplementation.Reset (mYield ctx)) ∧
    ((∃ rest, mLocalWorkQueue ctx = mailbox :: rest ∧
      s' = mkStore (this s) (<[c := mkContext false rest y]> (contexts s)))
     ∨ (mLocalWorkQueue ctx = [] ∧ lock_free s ∧
        ∃ rest, mSharedWorkQueue (this s) = mailbox :: rest ∧
        s' = mkStore (set_mSharedWorkQueue rest (this s))
               (<[c := mkContext false [] y]> (contexts s)))
     ∨ (mailbox = null ∧ mLocalWorkQueue ctx = [] ∧ lock_free s ∧
        mSharedWorkQueue (this s) = [] ∧
        s' = mkStore (this s) (<[c := mkContext false [] y]> (contexts s)))).
Proof.
  intros H. destruct (contexts s !! c) as [ctx|] eqn:Hc;
    [|by rewrite (Pop_bad_pointer _ _ Hc) in H].
  destruct (mShared ctx) eqn:Hs; [by rewrite (Pop_on_shared _ _ _ Hc Hs) in H|].
  exists ctx.
  destruct (mLocalWorkQueue ctx) as [|x rest] eqn:Hq.
  - destruct (decide (lock_free s)) as [Hl|Hl];
      [|by rewrite (Pop_lock_held _ _ _ Hc Hs Hq Hl) in H].
    destruct (mSharedWorkQueue (this s)) as [|x rest] eqn:Hw.
    + destruct (YieldImplementation.mYieldFunction (mYield ctx)) as [f|] eqn:Hf;
        [|by rewrite (Pop_none_unconfigured _ _ _ Hc Hs Hq Hw Hf Hl) in H].
      rewrite (Pop_none _ _ _ _ Hc Hs Hq Hw Hf Hl) in H. injection H as <- <-.
      eexists. rewrite decide_True by done.
      split_and!; [done..|by apply Execute_Some|]. do 2 right. eauto 10.
    + destruct (decide (x = null)) as [->|Hx].
      * destruct (YieldImplementation.mYieldFunction (mYield ctx)) as [f|] eqn:Hf;
          [|by rewrite (Pop_shared_null_unconfigured _ _ _ _ Hc Hs Hq Hw Hf Hl) in H].
        rewrite (Pop_shared_null _ _ _ _ _ Hc Hs Hq Hw Hf Hl) in H.
        injection H as <- <-. eexists. rewrite decide_True by done.
        split_and!; [done..|by apply Execute_Some|]. right; left. eauto 10.
      * rewrite (Pop_shared _ _ _ _ _ Hc Hs Hq Hw Hx Hl) in H. injection H as <- <-.
        eexists. rewrite decide_False by done.
        split_and!; [done..|]. right; left. eauto 10.
  - destruct (decide (x = null)) as [->|Hx].
    + destruct (YieldImplementation.mYieldFunction (mYield ctx)) as [f|] eqn:Hf;
        [|by rewrite (Pop_local_null_unconfigured _ _ _ _ Hc Hs Hq Hf) in H].
      rewrite (Pop_local_null _ _ _ _ _ Hc Hs Hq Hf) in H.
      injection H as <- <-. eexists. rewrite decide_True by done.
      split_and!; [done..|by apply Execute_Some|]. left. eauto.
    + rewrite (Pop_local _ _ _ _ _ Hc Hs Hq Hx) in H. injection H as <- <-.
      eexists. rewrite decide_False by done.
      split_and!; [done..|]. left. eauto.
Qed.

Lemma Empty_inv s c b s' :
  Empty c s = Returns (b, s') →
  s' = s ∧ ∃ ctx, contexts s !! c = Some ctx ∧
    (b = true →
     (mShared ctx = false → mLocalWorkQueue ctx = [])
     ∧ mSharedWorkQueue (this s) = [] ∧ lock_free s).
Proof.
  intros H. destruct (contexts s !! c) as [ctx|] eqn:Hc.
  - destruct (decide (mShared ctx = false ∧ mLocalWorkQueue ctx ≠ [])) as [[Hs Hq]|Hn].
    { rewrite (Empty_local_work _ _ _ Hc Hs Hq) in H. injection H as <- <-.
      split; [done|]. exists ctx. by split. }
    assert (mShared ctx = true ∨ mLocalWorkQueue ctx = []) as Hor.
    { destruct (mShared ctx); [by left|]. right.
      destruct (mLocalWorkQueue ctx); [done|]. destruct Hn. by split. }
    destruct (decide (lock_free s)) as [Hl|Hl].
    + rewrite (Empty_shared_queue _ _ _ Hc Hor Hl) in H. injection H as <- <-.
      split; [done|]. exists ctx. split; [done|]. intros Hw. split_and!; [|by destruct (mSharedWorkQueue (this s))|done].
      intros Hs. destruct Hor as [Ht|]; [congruence|done].
    + unfold Empty in H. erewrite bind_Returns in H by by apply load_Returns.
      erewrite (bind_Returns _ _ s false s) in H.
      * erewrite bind_Fails in H; [done|]. by apply Lock_held.
      * destruct (mShared ctx); [done|]. destruct Hor as [|Hq]; [done|].
        cbn. erewrite bind_Returns by by apply load_Returns. by rewrite Hq.
  - unfold Empty in H. erewrite bind_Fails in H; [done|]. unfold load. by rewrite Hc.
Qed.

(** ** The queued mailboxes *)

Lemma local_items_lookup cs c ctx :
  cs !! c = Some ctx →
  local_items cs ≡ₚ mLocalWorkQueue ctx ++ local_items (delete c cs).
Proof.
  intros Hc. unfold local_items.
  by rewrite <- (map_to_list_delete cs c ctx Hc).
Qed.

Lemma local_items_insert cs c ctx' :
  local_items (<[c := ctx']> cs) ≡ₚ mLocalWorkQueue ctx' ++ local_items (delete c cs).
Proof.
  unfold local_items. rewrite <- insert_delete_eq.
  by rewrite map_to_list_insert by apply lookup_delete_eq.
Qed.

Lemma local_items_same_queue cs c ctx ctx' :
  cs !! c = Some ctx → mLocalWorkQueue ctx' = mLocalWorkQueue ctx →
  local_items (<[c := ctx']> cs) ≡ₚ local_items cs.
Proof.
  intros Hc Hq. by rewrite local_items_insert, Hq, <- local_items_lookup.
Qed.

Lemma local_items_elem cs c ctx x :
  cs !! c = Some ctx → x ∈ mLocalWorkQueue ctx → x ∈ local_items cs.
Proof. intros Hc Hx. rewrite (local_items_lookup _ _ _ Hc). set_solver. Qed.

Lemma local_items_nil cs :
  local_items cs = [] ↔ ∀ c ctx, cs !! c = Some ctx → mLocalWorkQueue ctx = [].
Proof.
  unfold local_items. split.
  - intros E c ctx Hc%elem_of_map_to_list.
    induction (map_to_list cs) as [|kc l IH]; [by apply elem_of_nil in Hc|].
    cbn in E. apply app_eq_nil in E as [E1 E2].
    apply elem_of_cons in Hc as [<-|Hc]; [done|by apply IH].
  - intros H.
    assert (Forall (λ kc, mLocalWorkQueue kc.2 = []) (map_to_list cs)) as HF.
    { apply Forall_forall. intros [c ctx] Hin%elem_of_map_to_list. by eapply H. }
    induction HF as [|kc l E _ IH]; [done|]. cbn. by rewrite E, IH.
Qed.

Lemma queued_fresh yieldStrategy addrs : queued (fresh yieldStrategy addrs) = [].
Proof.
  unfold queued, fresh. cbn. apply local_items_nil.
  by intros c ctx [_ <-]%lookup_gset_to_gmap_Some.
Qed.

(** ** Conservation of mailboxes *)

Lemma call_inv o s r s' :
  call o s = Returns (r, s') →
  match o with
  | OpInitializeSharedContext c =>
      r = RetVoid ∧ InitializeSharedContext c s = Returns ((), s')
  | OpInitializeWorkerContext c =>
      r = RetVoid ∧ InitializeWorkerContext c s = Returns ((), s')
  | OpReleaseSharedContext _ | OpReleaseWorkerContext _ | OpWakeAll =>
      r = RetVoid ∧ s' = s
  | OpEmpty c => ∃ b, r = RetBool b ∧ Empty c s = Returns (b, s')
  | OpPush c mailbox localThread =>
      r = RetVoid ∧ Push c mailbox localThread s = Returns ((), s')
  | OpPop c => ∃ mailbox, r = RetMailbox mailbox ∧ Pop c s = Returns (mailbox, s')
  end.
Proof.
  destruct o; cbn [call]; intros (a & s1 & H & [= <- <-])%bind_inv;
    try destruct a; eauto.
  - by injection H as <-.
  - by injection H as <-.
  - by injection H as <-.
Qed.

(** A call conserves the mailboxes; only null pointers that were queued
    disappear, popped and taken for "no mailbox". *)
Lemma call_conserves_nulls o s r s' :
  call o s = Returns (r, s') →
  ∃ nulls, Forall (λ x, x = null) nulls ∧ nulls ⊆+ queued s ∧
    queued s ++ pushed [(o, r)] ≡ₚ nulls ++ popped [(o, r)] ++ queued s'.
Proof.
  intros H%call_inv. unfold queued in *. destruct o; cbn [pushed popped].
  - destruct H as [-> (ctx & Hc & ->)%InitializeSharedContext_inv]. cbn.
    exists []. split_and!; [done|apply submseteq_nil_l|].
    by rewrite app_nil_r, (local_items_same_queue _ _ ctx).
  - destruct H as [-> (ctx & Hc & ->)%InitializeWorkerContext_inv]. cbn.
    exists []. split_and!; [done|apply submseteq_nil_l|].
    by rewrite app_nil_r, (local_items_same_queue _ _ ctx).
  - destruct H as [-> ->]. exists [].
    split_and!; [done|apply submseteq_nil_l|by rewrite app_nil_r].
  - destruct H as [-> ->]. exists [].
    split_and!; [done|apply submseteq_nil_l|by rewrite app_nil_r].
  - destruct H as (b & -> & [-> _]%Empty_inv). exists [].
    split_and!; [done|apply submseteq_nil_l|by rewrite app_nil_r].
  - destruct H as [-> ->]. exists [].
    split_and!; [done|apply submseteq_nil_l|by rewrite app_nil_r].
  - destruct H as [-> (ctx & Hc & [(-> & Hs & ->)|(Hb & Hl & ->)])%Push_inv];
      exists []; (split_and!; [done|apply submseteq_nil_l|]); cbn.
    + rewrite local_items_insert, (local_items_lookup _ _ _ Hc). cbn.
      solve_Permutation.
    + solve_Permutation.
  - destruct H as (m & -> & (ctx & y & Hc & Hs & _ & Hcases)%Pop_inv).
    destruct Hcases as [(rest & Hq & ->)|[(Hq & Hl & rest & Hw & ->)
                       |(-> & Hq & Hl & Hw & ->)]]; cbn.
    + destruct (decide (m = null)) as [->|Hm].
      * exists [null]. rewrite bool_decide_eq_false_2 by (by intros []).
        rewrite local_items_insert, !(local_items_lookup _ _ _ Hc), Hq. cbn.
        split_and!; [by repeat constructor|solve_submseteq|solve_Permutation].
      * exists []. rewrite bool_decide_eq_true_2 by done.
        rewrite local_items_insert, !(local_items_lookup _ _ _ Hc), Hq. cbn.
        split_and!; [done|apply submseteq_nil_l|solve_Permutation].
    + destruct (decide (m = null)) as [->|Hm].
      * exists [null]. rewrite bool_decide_eq_false_2 by (by intros []).
        rewrite local_items_insert, !(local_items_lookup _ _ _ Hc), Hq, Hw. cbn.
        split_and!; [by repeat constructor|solve_submseteq|solve_Permutation].
      * exists []. rewrite bool_decide_eq_true_2 by done.
        rewrite local_items_insert, !(local_items_lookup _ _ _ Hc), Hq, Hw. cbn.
        split_and!; [done|apply submseteq_nil_l|solve_Permutation].
    + exists []. rewrite bool_decide_eq_false_2 by (by intros []).
      rewrite local_items_insert, !(local_items_lookup _ _ _ Hc), Hq, Hw. cbn.
      split_and!; [done|apply submseteq_nil_l|by rewrite app_nil_r].
Qed.

Lemma call_conserves o s r s' :
  call o s = Returns (r, s') → null ∉ queued s →
  queued s ++ pushed [(o, r)] ≡ₚ popped [(o, r)] ++ queued s'.
Proof.
  intros (nulls & Hnulls & Hsub & Hperm)%call_conserves_nulls Hnull.
  destruct nulls as [|x nulls]; [done|]. destruct Hnull.
  apply Forall_cons in Hnulls as [-> _].
  eapply elem_of_submseteq; [|done]. set_solver.
Qed.

Lemma run_cons_inv o ops s h s' :
  run (o :: ops) s = Returns (h, s') →
  ∃ r s1 h', call o s = Returns (r, s1) ∧ run ops s1 = Returns (h', s')
             ∧ h = (o, r) :: h'.
Proof.
  cbn [run]. intros (r & s1 & Ho & (h' & s2 & Hr & [= <- <-])%bind_inv)%bind_inv.
  eauto 10.
Qed.

Lemma run_app ops1 ops2 s h s' :
  run (ops1 ++ ops2) s = Returns (h, s') ↔
  ∃ h1 s1 h2, run ops1 s = Returns (h1, s1) ∧ run ops2 s1 = Returns (h2, s')
              ∧ h = h1 ++ h2.
Proof.
  revert s h. induction ops1 as [|o ops1 IH]; intros s h; cbn [app].
  - split.
    + intros H. by exists [], s, h.
    + by intros (h1 & s1 & h2 & [= <- <-] & H & ->).
  - split.
    + intros (r & s1 & h' & Ho & (h1 & s2 & h2 & H1 & H2 & ->)%IH & ->)%run_cons_inv.
      exists ((o, r) :: h1), s2, h2. split_and!; [|done..].
      cbn [run]. erewrite bind_Returns by done. by erewrite bind_Returns by done.
    + intros (h1 & s1 & h2 & (r & s2 & h' & Ho & H1 & ->)%run_cons_inv & H2 & ->).
      cbn [run]. erewrite bind_Returns by done.
      erewrite bind_Returns; [done|]. apply IH. eauto 10.
Qed.

Lemma pushed_app h1 h2 : pushed (h1 ++ h2) = pushed h1 ++ pushed h2.
Proof.
  induction h1 as [|[o r] h1 IH]; [done|].
  destruct o; cbn; by rewrite ?IH.
Qed.

Lemma popped_app h1 h2 : popped (h1 ++ h2) = popped h1 ++ popped h2.
Proof.
  induction h1 as [|[o r] h1 IH]; [done|].
  destruct o; cbn; rewrite ?IH; try done.
  destruct r; try done. by case_bool_decide.
Qed.


Lemma run_conserves ops s h s' :
  run ops s = Returns (h, s') → null ∉ queued s → null ∉ pushed h →
  queued s ++ pushed h ≡ₚ popped h ++ queued s'.
Proof.
  revert s h. induction ops as [|o ops IH]; intros s h H Hq Hp.
  - injection H as <- <-. cbn. by rewrite app_nil_r.
  - apply run_cons_inv in H as (r & s1 & h' & Ho & Hr & ->).
    change ((o, r) :: h') with ([(o, r)] ++ h') in *.
    rewrite pushed_app in *. rewrite popped_app.
    pose proof (call_conserves _ _ _ _ Ho Hq) as Hstep.
    assert (null ∉ queued s1) as Hq1.
    { intros Hin. assert (null ∈ popped [(o, r)] ++ queued s1) as Hin' by set_solver.
      rewrite <- Hstep in Hin'. set_solver. }
    assert (null ∉ pushed h') as Hp' by set_solver.
    specialize (IH _ _ Hr Hq1 Hp').
    rewrite (assoc_L (++)), Hstep, <- (assoc_L (++)), IH. solve_Permutation.
Qed.

(** ** Draining *)

Lemma local_items_not_nil cs :
  local_items cs ≠ [] →
  ∃ c ctx, cs !! c = Some ctx ∧ mLocalWorkQueue ctx ≠ [].
Proof.
  unfold local_items. intros Hne.
  assert (∃ kc, kc ∈ map_to_list cs ∧ mLocalWorkQueue kc.2 ≠ [])
    as ([c ctx] & Hin%elem_of_map_to_list & Hq); [|by eauto].
  induction (map_to_list cs) as [|kc l IH]; [done|]. cbn in Hne.
  destruct (mLocalWorkQueue kc.2) eqn:E.
  - destruct (IH Hne) as (kc' & Hin & Hq). exists kc'. set_solver.
  - exists kc. split; [set_solver|]. by rewrite E.
Qed.

Lemma drain_step s :
  drainable s → null ∉ queued s → queued s ≠ [] →
  ∃ c mailbox s',
    Pop c s = Returns (mailbox, s') ∧ mailbox ≠ null ∧
    length (queued s) = S (length (queued s')) ∧ drainable s'.
Proof.
  intros (Hl & Hlocal & Hshared) Hnull Hne.
  destruct (decide (local_items (contexts s) = [])) as [Hnil|Hnn].
  - (* only the shared queue holds work *)
    unfold queued in Hne, Hnull. rewrite Hnil, app_nil_r in Hne, Hnull.
    destruct (Hshared Hne) as (c & ctx & Hc & Hs).
    pose proof (proj1 (local_items_nil _) Hnil c ctx Hc) as Hq.
    destruct (mSharedWorkQueue (this s)) as [|m rest] eqn:Hw; [done|].
    assert (m ≠ null) as Hm by set_solver.
    eexists c, m, _. split; [by apply Pop_shared|]. split; [done|].
    split.
    + unfold queued. cbn. rewrite Hw.
      rewrite (local_items_same_queue _ _ ctx) by done. by rewrite Hnil.
    + split_and!; cbn.
      * by open_store s.
      * intros c' ctx' [[-> <-]|[_ Hc']]%lookup_insert_Some; [done|]. eauto.
      * intros _. exists c. eexists. split; [apply lookup_insert_eq|done].
  - (* some context holds local work *)
    destruct (local_items_not_nil _ Hnn) as (c & ctx & Hc & Hq).
    pose proof (Hlocal _ _ Hc Hq) as Hs.
    destruct (mLocalWorkQueue ctx) as [|m rest] eqn:Hq'; [done|].
    assert (m ≠ null) as Hm.
    { intros ->. apply Hnull, elem_of_app. right.
      eapply local_items_elem; [done|]. rewrite Hq'. set_solver. }
    eexists c, m, _. split; [by apply Pop_local|]. split; [done|].
    split.
    + unfold queued. cbn.
      rewrite local_items_insert, (local_items_lookup _ _ _ Hc), Hq'. cbn.
      rewrite !length_app. cbn. rewrite !length_app. lia.
    + split_and!; cbn.
      * done.
      * intros c' ctx' [[-> <-]|[_ Hc']]%lookup_insert_Some; [done|]. eauto.
      * intros _. exists c. eexists. split; [apply lookup_insert_eq|done].
Qed.

Lemma drain_exists n s :
  length (queued s) = n → drainable s → null ∉ queued s →
  ∃ pops h s',
    Forall is_Pop pops ∧ run pops s = Returns (h, s') ∧ queued s' = []
    ∧ pushed h = [].
Proof.
  revert s. induction n as [|n IH]; intros s Hn Hd Hnull.
  - exists [], [], s. split_and!; [done..| |done]. by apply length_zero_iff_nil.
  - destruct (drain_step s Hd Hnull) as (c & m & s1 & HPop & Hm & Hlen & Hd1).
    { intros E. by rewrite E in Hn. }
    assert (call (OpPop c) s = Returns (RetMailbox m, s1)) as Hcall.
    { cbn [call]. by erewrite bind_Returns by done. }
    assert (null ∉ queued s1) as Hnull1.
    { pose proof (call_conserves _ _ _ _ Hcall Hnull) as Hp. cbn in Hp.
      rewrite app_nil_r in Hp. rewrite Hp in Hnull. case_bool_decide; set_solver. }
    destruct (IH s1) as (pops & h & s' & HF & Hrun & Hq & Hp); [lia|done..|].
    exists (OpPop c :: pops), ((OpPop c, RetMailbox m) :: h), s'.
    split_and!; [by constructor| |done|done].
    cbn [run]. erewrite bind_Returns by done. by erewrite bind_Returns by done.
Qed.

(** ** No loss, no duplication *)

(** C1.  Take any execution, by any contexts and with any local-affinity
    hints, of a scheduler whose queues start empty, in which the pushed
    mailboxes are real (non-null) addresses.  At every point the pushes are
    exactly the successful pops together with what is still queued, so a
    push is answered by at most one successful pop; when every queue is
    empty the successful pops are exactly the pushes, each once; and
    whenever the contexts that hold work may call [Pop], a sequence of
    [Pop] calls empties every queue and completes the pops to the pushes. *)
Theorem no_loss_no_duplication ops s0 h s :
  queued s0 = [] →
  run ops s0 = Returns (h, s) →
  null ∉ pushed h →
  pushed h ≡ₚ popped h ++ queued s
  ∧ popped h ⊆+ pushed h
  ∧ (NoDup (pushed h) → NoDup (popped h))
  ∧ (queued s = [] → popped h ≡ₚ pushed h)
  ∧ (drainable s →
     ∃ pops h' s',
       Forall is_Pop pops
       ∧ run (ops ++ pops) s0 = Returns (h ++ h', s')
       ∧ queued s' = []
       ∧ popped (h ++ h') ≡ₚ pushed h).
Proof.
  intros H0 Hrun Hnull.
  assert (pushed h ≡ₚ popped h ++ queued s) as Hcons.
  { pose proof (run_conserves _ _ _ _ Hrun) as Hc. rewrite H0 in Hc.
    apply Hc; [set_solver|done]. }
  split_and!.
  - done.
  - rewrite Hcons. by apply submseteq_inserts_r.
  - rewrite Hcons. by intros [? _]%NoDup_app.
  - intros E. by rewrite Hcons, E, app_nil_r.
  - intros Hd.
    assert (null ∉ queued s) as Hnull'.
    { intros Hin. apply Hnull. rewrite Hcons. set_solver. }
    destruct (drain_exists _ s eq_refl Hd Hnull') as (pops & h' & s' & HF & Hr & Hq & Hp).
    exists pops, h', s'. split_and!; [done| |done|].
    + apply run_app. eauto 10.
    + assert (run (ops ++ pops) s0 = Returns (h ++ h', s')) as Hall
        by (apply run_app; eauto 10).
      apply run_conserves in Hall.
      * rewrite H0, Hq, app_nil_r, pushed_app, Hp, app_nil_r in Hall. cbn in Hall.
        by symmetry.
      * rewrite H0. set_solver.
      * by rewrite pushed_app, Hp, app_nil_r.
Qed.

Lemma no_loss_no_duplication_witness :
  ∃ h s,
    run [OpPush 1 1%N true; OpPush 0 4%N true; OpPush 2 7%N false; OpPop 2] demo
    = Returns (h, s)
    ∧ pushed h ≡ₚ popped h ++ queued s
    ∧ ∃ pops h' s',
        Forall is_Pop pops
        ∧ run ([OpPush 1 1%N true; OpPush 0 4%N true; OpPush 2 7%N false; OpPop 2]
               ++ pops) demo = Returns (h ++ h', s')
        ∧ queued s' = []
        ∧ popped (h ++ h') ≡ₚ pushed h.
Proof.
  eexists _, _. split; [vm_compute; reflexivity|].
  edestruct (no_loss_no_duplication
               [OpPush 1 1%N true; OpPush 0 4%N true; OpPush 2 7%N false; OpPop 2]
               demo) as (H1 & _ & _ & _ & H5).
  - vm_compute; reflexivity.
  - vm_compute; reflexivity.
  - cbn. set_solver.
  - split; [exact H1|]. apply H5. split_and!.
    + vm_compute; reflexivity.
    + apply (bool_decide_unpack
               (map_Forall (λ (_ : addr) ctx,
                              mLocalWorkQueue ctx ≠ [] → mShared ctx = false) _)).
      vm_compute. exact I.
    + intros _. exists 1, (mkContext false [1%N]
         (YieldImplementation.mk (Some YieldPolicy.YieldStrong) 0 [])).
      split; vm_compute; reflexivity.
Defined.

(** ** Retrieval order of [Pop] *)

(** C2.  On a worker context, [Pop] returns the head of the context's own
    queue when that queue is not empty, and then leaves the scheduler object
    (shared queue and lock) as it was; otherwise it returns the head of the
    shared queue when that is not empty; and when both are empty it returns
    the null pointer and leaves both queues unchanged.  No other context is
    modified. *)
Theorem Pop_local_then_shared s c ctx :
  contexts s !! c = Some ctx → is_worker ctx →
  (∀ mailbox rest, mLocalWorkQueue ctx = mailbox :: rest →
     ∃ y, Pop c s
          = Returns (mailbox,
                     mkStore (this s) (<[c := mkContext false rest y]> (contexts s))))
  ∧ (mLocalWorkQueue ctx = [] → lock_free s →
     (∀ mailbox rest, mSharedWorkQueue (this s) = mailbox :: rest →
        ∃ y, Pop c s
             = Returns (mailbox,
                        mkStore (set_mSharedWorkQueue rest (this s))
                                (<[c := mkContext false [] y]> (contexts s))))
     ∧ (mSharedWorkQueue (this s) = [] →
        ∃ y, Pop c s
             = Returns (null,
                        mkStore (this s)
                                (<[c := mkContext false [] y]> (contexts s))))).
Proof.
  intros Hc [Hs [f Hf]]. split; [|intros Hq Hl; split].
  - intros m rest Hq. destruct (decide (m = null)) as [->|Hm].
    + eexists. by eapply Pop_local_null.
    + eexists. by apply Pop_local.
  - intros m rest Hw. destruct (decide (m = null)) as [->|Hm].
    + eexists. by eapply Pop_shared_null.
    + eexists. by apply Pop_shared.
  - intros Hw. eexists. by eapply Pop_none.
Qed.

Lemma Pop_local_then_shared_witness :
  ∃ y, Pop 1 busy
       = Returns (8%N, mkStore (this busy)
                         (<[1 := mkContext false [9%N] y]> (contexts busy))).
Proof.
  destruct (Pop_local_then_shared busy 1
              (mkContext false [8%N; 9%N]
                 (YieldImplementation.mk (Some YieldPolicy.YieldStrong) 0 [])))
    as [H _].
  - vm_compute; reflexivity.
  - split; [reflexivity | eexists; reflexivity].
  - exact (H 8%N [9%N] eq_refl).
Defined.

(** ** Placement by [Push] *)

(** C3.  [Push] appends the mailbox at the tail of the caller's own queue
    exactly when the hint is set and the context is not the shared context;
    in every other case it appends it at the tail of the shared queue.
    Either way one queue grows by that one mailbox and every other queue is
    left as it was. *)
Theorem Push_placement s c ctx mailbox localThread :
  contexts s !! c = Some ctx →
  (localThread = true ∧ mShared ctx = false →
   Push c mailbox localThread s
   = Returns ((), mkStore (this s)
        (<[c := set_mLocalWorkQueue (mLocalWorkQueue ctx ++ [mailbox]) ctx]>
           (contexts s))))
  ∧ (¬ (localThread = true ∧ mShared ctx = false) → lock_free s →
     Push c mailbox localThread s
     = Returns ((), mkStore
          (set_mSharedWorkQueue (mSharedWorkQueue (this s) ++ [mailbox]) (this s))
          (contexts s)))
  ∧ (∀ u s', Push c mailbox localThread s = Returns (u, s') →
     queued s' ≡ₚ mailbox :: queued s).
Proof.
  intros Hc. split_and!.
  - intros [-> Hs]. by apply Push_local.
  - intros Hn Hl. apply (Push_shared _ _ ctx); [done| |done].
    destruct localThread, (mShared ctx); try done. by destruct Hn.
  - intros u s' H.
    apply Push_inv in H as (ctx' & Hc' & [(-> & Hs & ->)|(Hb & Hl & ->)]);
      unfold queued; cbn.
    + rewrite local_items_insert, (local_items_lookup _ _ _ Hc'). cbn.
      solve_Permutation.
    + solve_Permutation.
Qed.

Lemma Push_placement_witness :
  Push 0 6%N true busy
  = Returns ((), mkStore (set_mSharedWorkQueue [5%N; 6%N] (this busy)) (contexts busy)).
Proof.
  destruct (Push_placement busy 0
              (mkContext true [] YieldImplementation.ctor) 6%N true)
    as (_ & H & _).
  - vm_compute; reflexivity.
  - apply H; [intros [_ [=]] | reflexivity].
Defined.

(** ** First in, first out *)

Lemma context_eta ctx :
  mkContext (mShared ctx) (mLocalWorkQueue ctx) (mYield ctx) = ctx.
Proof. by destruct ctx. Qed.

Lemma store_insert_id s c ctx :
  contexts s !! c = Some ctx →
  mkStore (this s) (<[c := ctx]> (contexts s)) = s.
Proof. intros Hc. rewrite insert_id by done. apply store_eta. Qed.

Lemma run_cons o ops s r s1 h s' :
  call o s = Returns (r, s1) → run ops s1 = Returns (h, s') →
  run (o :: ops) s = Returns ((o, r) :: h, s').
Proof.
  intros Ho Hr. cbn [run]. erewrite bind_Returns by done.
  by erewrite bind_Returns by done.
Qed.

Lemma call_Push c mailbox localThread s s' :
  Push c mailbox localThread s = Returns ((), s') →
  call (OpPush c mailbox localThread) s = Returns (RetVoid, s').
Proof. intros H. cbn [call]. by erewrite bind_Returns by done. Qed.

Lemma call_Pop c s mailbox s' :
  Pop c s = Returns (mailbox, s') →
  call (OpPop c) s = Returns (RetMailbox mailbox, s').
Proof. intros H. cbn [call]. by erewrite bind_Returns by done. Qed.

Lemma run_pushes_local c items : ∀ s ctx,
  contexts s !! c = Some ctx → mShared ctx = false →
  run ((λ m, OpPush c m true) <$> items) s
  = Returns ((λ m, (OpPush c m true, RetVoid)) <$> items,
             mkStore (this s)
               (<[c := set_mLocalWorkQueue (mLocalWorkQueue ctx ++ items) ctx]>
                  (contexts s))).
Proof.
  induction items as [|m items IH]; intros s ctx Hc Hs.
  - cbn. rewrite app_nil_r. unfold set_mLocalWorkQueue.
    by rewrite context_eta, store_insert_id.
  - cbn [fmap list_fmap]. erewrite run_cons;
      [|by apply call_Push, Push_local|apply IH; [apply lookup_insert_eq|done]].
    cbn. rewrite insert_insert_eq. unfold set_mLocalWorkQueue. cbn.
    by rewrite <- (assoc_L (++)).
Qed.

Lemma run_pushes_shared p l items : ∀ s ctxp,
  contexts s !! p = Some ctxp → l && negb (mShared ctxp) = false → lock_free s →
  run ((λ m, OpPush p m l) <$> items) s
  = Returns ((λ m, (OpPush p m l, RetVoid)) <$> items,
             mkStore (set_mSharedWorkQueue (mSharedWorkQueue (this s) ++ items) (this s))
                     (contexts s)).
Proof.
  induction items as [|m items IH]; intros s ctxp Hc Hb Hl.
  - cbn. rewrite app_nil_r. by open_store s.
  - cbn [fmap list_fmap]. erewrite run_cons;
      [|by eapply call_Push, Push_shared|by eapply IH].
    cbn. unfold set_mSharedWorkQueue. cbn. by rewrite <- (assoc_L (++)).
Qed.

Lemma run_pops_local c items : ∀ s ctx rest,
  contexts s !! c = Some ctx → mShared ctx = false →
  mLocalWorkQueue ctx = items ++ rest → null ∉ items →
  ∃ y, run (replicate (length items) (OpPop c)) s
       = Returns ((λ m, (OpPop c, RetMailbox m)) <$> items,
                  mkStore (this s) (<[c := mkContext false rest y]> (contexts s))).
Proof.
  induction items as [|m items IH]; intros s ctx rest Hc Hs Hq Hn.
  - exists (mYield ctx). cbn. rewrite <- Hs. cbn in Hq. rewrite <- Hq.
    by rewrite context_eta, store_insert_id.
  - edestruct (IH (mkStore (this s)
                     (<[c := mkContext false (items ++ rest)
                               (YieldImplementation.Reset (mYield ctx))]> (contexts s))))
      as [y Hy]; [apply lookup_insert_eq|done|done|set_solver|].
    exists y. cbn [length replicate fmap list_fmap].
    erewrite run_cons; [|apply call_Pop, Pop_local; [done..|set_solver]|exact Hy].
    cbn. by rewrite insert_insert_eq.
Qed.

Lemma run_pops_shared c items : ∀ s ctx rest,
  contexts s !! c = Some ctx → mShared ctx = false → mLocalWorkQueue ctx = [] →
  mSharedWorkQueue (this s) = items ++ rest → null ∉ items → lock_free s →
  ∃ y, run (replicate (length items) (OpPop c)) s
       = Returns ((λ m, (OpPop c, RetMailbox m)) <$> items,
                  mkStore (set_mSharedWorkQueue rest (this s))
                          (<[c := mkContext false [] y]> (contexts s))).
Proof.
  induction items as [|m items IH]; intros s ctx rest Hc Hs Hq Hw Hn Hl.
  - exists (mYield ctx). cbn. rewrite <- Hs, <- Hq, context_eta. cbn in Hw.
    rewrite insert_id by done. by open_store s.
  - edestruct (IH (mkStore (set_mSharedWorkQueue (items ++ rest) (this s))
                     (<[c := mkContext false []
                               (YieldImplementation.Reset (mYield ctx))]> (contexts s))))
      as [y Hy]; [apply lookup_insert_eq|done|done|done|set_solver|by open_store s|].
    exists y. cbn [length replicate fmap list_fmap].
    erewrite run_cons; [|apply call_Pop, Pop_shared; [done..|set_solver|done]|exact Hy].
    cbn. by rewrite insert_insert_eq.
Qed.

(** C4.  Pushing a list of mailboxes into one queue, the own queue of a
    context that is not the shared context or the shared queue, and then
    popping as many times returns exactly that list, in push order, and
    leaves that queue empty.  The mailboxes for the shared queue are pushed
    by any context [p] whose pushes go there. *)
Theorem fifo_round_trip s c ctx items :
  contexts s !! c = Some ctx → mShared ctx = false → mLocalWorkQueue ctx = [] →
  null ∉ items →
  (∃ s',
     run (((λ m, OpPush c m true) <$> items) ++ replicate (length items) (OpPop c)) s
     = Returns (((λ m, (OpPush c m true, RetVoid)) <$> items)
                ++ ((λ m, (OpPop c, RetMailbox m)) <$> items), s')
     ∧ this s' = this s
     ∧ ∃ ctx', contexts s' !! c = Some ctx' ∧ mLocalWorkQueue ctx' = [])
  ∧ (∀ p ctxp l,
       contexts s !! p = Some ctxp → l && negb (mShared ctxp) = false →
       lock_free s → mSharedWorkQueue (this s) = [] →
       ∃ s',
         run (((λ m, OpPush p m l) <$> items) ++ replicate (length items) (OpPop c)) s
         = Returns (((λ m, (OpPush p m l, RetVoid)) <$> items)
                    ++ ((λ m, (OpPop c, RetMailbox m)) <$> items), s')
         ∧ mSharedWorkQueue (this s') = []
         ∧ ∃ ctx', contexts s' !! c = Some ctx' ∧ mLocalWorkQueue ctx' = []).
Proof.
  intros Hc Hs Hq Hn. split.
  - pose proof (run_pushes_local c items s ctx Hc Hs) as Hpush.
    rewrite Hq in Hpush. cbn in Hpush.
    edestruct (run_pops_local c items
                 (mkStore (this s) (<[c := set_mLocalWorkQueue items ctx]> (contexts s)))
                 (set_mLocalWorkQueue items ctx) [])
      as [y Hpop]; [apply lookup_insert_eq|done|by rewrite app_nil_r|done|].
    eexists. split; [apply run_app; eauto 10|]. cbn. split; [done|].
    rewrite insert_insert_eq. eexists. by rewrite lookup_insert_eq.
  - intros p ctxp l Hp Hb Hl Hw.
    pose proof (run_pushes_shared p l items s ctxp Hp Hb Hl) as Hpush.
    rewrite Hw in Hpush. cbn in Hpush.
    edestruct (run_pops_shared c items
                 (mkStore (set_mSharedWorkQueue items (this s)) (contexts s)) ctx [])
      as [y Hpop]; [done|done|done|by rewrite app_nil_r|done|by open_store s|].
    eexists. split; [apply run_app; eauto 10|]. cbn. split; [done|].
    eexists. by rewrite lookup_insert_eq.
Qed.

Lemma fifo_round_trip_witness :
  ∃ s',
    run [OpPush 1 1%N true; OpPush 1 2%N true; OpPush 1 3%N true;
         OpPop 1; OpPop 1; OpPop 1] demo
    = Returns ([(OpPush 1 1%N true, RetVoid); (OpPush 1 2%N true, RetVoid);
                (OpPush 1 3%N true, RetVoid);
                (OpPop 1, RetMailbox 1%N); (OpPop 1, RetMailbox 2%N);
                (OpPop 1, RetMailbox 3%N)], s')
    ∧ this s' = this demo
    ∧ ∃ ctx', contexts s' !! 1 = Some ctx' ∧ mLocalWorkQueue ctx' = [].
Proof.
  destruct (fifo_round_trip demo 1
              (mkContext false []
                 (YieldImplementation.mk (Some YieldPolicy.YieldStrong) 0 []))
              [1%N; 2%N; 3%N]) as [H _].
  - vm_compute; reflexivity.
  - reflexivity.
  - reflexivity.
  - set_solver.
  - exact H.
Defined.

(** ** Local affinity *)

Lemma occurrences_app m l k :
  occurrences m (l ++ k) = occurrences m l + occurrences m k.
Proof. induction l as [|x l IH]; cbn; [done|]. rewrite IH. lia. Qed.

Lemma occurrences_Permutation m l k :
  l ≡ₚ k → occurrences m l = occurrences m k.
Proof. induction 1; cbn; lia. Qed.

Lemma occurrences_elem m l : m ∈ l → 0 < occurrences m l.
Proof.
  induction 1 as [x l|x y l _ IH]; cbn; [|lia].
  rewrite decide_True by done. lia.
Qed.

Lemma occurrences_not_elem m l : m ∉ l ↔ occurrences m l = 0.
Proof.
  split.
  - induction l as [|x l IH]; [done|]. intros [Hne Hnin]%not_elem_of_cons. cbn.
    rewrite decide_False by done. by rewrite IH.
  - intros E Hin%occurrences_elem. lia.
Qed.

Lemma occurrences_nulls m nulls :
  m ≠ null → Forall (λ x, x = null) nulls → occurrences m nulls = 0.
Proof.
  intros Hm HF. apply occurrences_not_elem. intros Hin.
  by rewrite Forall_forall in HF; apply HF in Hin.
Qed.

(** A call conserves the occurrences of every mailbox. *)
Lemma call_count o s r s1 m :
  call o s = Returns (r, s1) → m ≠ null →
  occurrences m (queued s) + occurrences m (pushed [(o, r)])
  = occurrences m (popped [(o, r)]) + occurrences m (queued s1).
Proof.
  intros (nulls & Hnulls & _ & Hperm)%call_conserves_nulls Hm.
  apply (occurrences_Permutation m) in Hperm.
  rewrite !occurrences_app in Hperm.
  by rewrite (occurrences_nulls _ _ Hm Hnulls) in Hperm.
Qed.


Lemma two_locals cs c ctx c' ctx' :
  cs !! c = Some ctx → cs !! c' = Some ctx' → c ≠ c' →
  local_items cs
  ≡ₚ mLocalWorkQueue ctx ++ mLocalWorkQueue ctx'
     ++ local_items (delete c' (delete c cs)).
Proof.
  intros Hc Hc' Hne. rewrite (local_items_lookup _ _ _ Hc).
  by rewrite (local_items_lookup (delete c cs) c' ctx')
    by by rewrite lookup_delete_ne.
Qed.

(** A mailbox that sits once in the queues, in the queue of [c], can be
    popped through [c] only. *)
Lemma Pop_owner s c' mailbox s1 c ctx :
  Pop c' s = Returns (mailbox, s1) → mailbox ≠ null →
  contexts s !! c = Some ctx → mailbox ∈ mLocalWorkQueue ctx →
  occurrences mailbox (queued s) = 1 →
  c' = c.
Proof.
  intros (ctx' & y & Hc' & Hs' & _ & Hcases)%Pop_inv Hm Hc Hin Hone.
  destruct (decide (c = c')) as [|Hne]; [done|exfalso].
  apply occurrences_elem in Hin. unfold queued in Hone.
  rewrite occurrences_app in Hone.
  destruct Hcases as [(rest & Hq & _)|[(_ & _ & rest & Hw & _)|(-> & _)]].
  - rewrite (occurrences_Permutation _ _ _ (two_locals _ _ _ _ _ Hc Hc' Hne)) in Hone.
    rewrite !occurrences_app, Hq in Hone. cbn in Hone.
    rewrite decide_True in Hone by done. lia.
  - rewrite (occurrences_Permutation _ _ _ (local_items_lookup _ _ _ Hc)) in Hone.
    rewrite occurrences_app, Hw in Hone. cbn in Hone.
    rewrite decide_True in Hone by done. lia.
  - done.
Qed.

Lemma call_keeps_local o s r s1 c ctx mailbox :
  call o s = Returns (r, s1) →
  contexts s !! c = Some ctx → mailbox ∈ mLocalWorkQueue ctx →
  (∃ ctx1, contexts s1 !! c = Some ctx1 ∧ mailbox ∈ mLocalWorkQueue ctx1)
  ∨ (o = OpPop c ∧ r = RetMailbox mailbox).
Proof.
  intros H%call_inv Hc Hin. destruct o.
  - destruct H as [-> (ctx0 & Hc0 & ->)%InitializeSharedContext_inv]. left. cbn.
    destruct (decide (context = c)) as [->|Hne]; simplify_map_eq; eauto.
  - destruct H as [-> (ctx0 & Hc0 & ->)%InitializeWorkerContext_inv]. left. cbn.
    destruct (decide (context = c)) as [->|Hne]; simplify_map_eq; eauto.
  - destruct H as [-> ->]. eauto.
  - destruct H as [-> ->]. eauto.
  - destruct H as (b & -> & [-> _]%Empty_inv). eauto.
  - destruct H as [-> ->]. eauto.
  - destruct H as [-> (ctx0 & Hc0 & [(-> & Hs & ->)|(Hb & Hl & ->)])%Push_inv];
      left; cbn; [|by eauto].
    destruct (decide (context = c)) as [->|Hne]; simplify_map_eq; [|by eauto].
    eexists. split; [done|]. cbn. set_solver.
  - destruct H as (m & -> & (ctx0 & y & Hc0 & Hs0 & _ & Hcases)%Pop_inv).
    destruct (decide (context = c)) as [->|Hne].
    + simplify_eq.
      destruct Hcases as [(rest & Hq & ->)|[(Hq & _)|(_ & Hq & _)]].
      * rewrite Hq in Hin. apply elem_of_cons in Hin as [->|Hin]; [by right|].
        left. cbn. simplify_map_eq. eauto.
      * rewrite Hq in Hin. by apply elem_of_nil in Hin.
      * rewrite Hq in Hin. by apply elem_of_nil in Hin.
    + left.
      destruct Hcases as [(rest & _ & ->)|[(_ & _ & rest & _ & ->)
                         |(_ & _ & _ & _ & ->)]];
        cbn; simplify_map_eq; eauto.
Qed.

(** A mailbox that is neither queued nor pushed is not popped. *)
Lemma never_popped m c' ops : ∀ s h s',
  run ops s = Returns (h, s') → m ≠ null →
  occurrences m (queued s) = 0 → occurrences m (pushed h) = 0 →
  (OpPop c', RetMailbox m) ∉ h.
Proof.
  induction ops as [|o ops IH]; intros s h s' Hrun Hm Hq Hp Hev.
  - injection Hrun as <- <-. by apply elem_of_nil in Hev.
  - apply run_cons_inv in Hrun as (r & s1 & h' & Ho & Hr & ->).
    pose proof (call_count _ _ _ _ m Ho Hm) as Hcount.
    change ((o, r) :: h') with ([(o, r)] ++ h') in Hp.
    rewrite pushed_app, occurrences_app in Hp.
    apply elem_of_cons in Hev as [[= <- <-]|Hev].
    + cbn in Hcount. rewrite bool_decide_eq_true_2 in Hcount by done.
      cbn in Hcount. rewrite decide_True in Hcount by done. lia.
    + eapply (IH s1); [done..| | |done]; lia.
Qed.

Lemma local_mailbox_owner m c c' ops : ∀ s ctx h s',
  run ops s = Returns (h, s') → m ≠ null →
  contexts s !! c = Some ctx → m ∈ mLocalWorkQueue ctx →
  occurrences m (queued s) = 1 → occurrences m (pushed h) = 0 →
  (OpPop c', RetMailbox m) ∈ h → c' = c.
Proof.
  induction ops as [|o ops IH]; intros s ctx h s' Hrun Hm Hc Hin Hq Hp Hev.
  - injection Hrun as <- <-. by apply elem_of_nil in Hev.
  - apply run_cons_inv in Hrun as (r & s1 & h' & Ho & Hr & ->).
    pose proof (call_count _ _ _ _ m Ho Hm) as Hcount.
    change ((o, r) :: h') with ([(o, r)] ++ h') in Hp.
    rewrite pushed_app, occurrences_app in Hp.
    apply elem_of_cons in Hev as [[= <- <-]|Hev].
    + apply call_inv in Ho as (m' & [= <-] & HPop). by eapply Pop_owner.
    + destruct (call_keeps_local _ _ _ _ _ _ _ Ho Hc Hin)
        as [(ctx1 & Hc1 & Hin1)|[-> ->]].
      * eapply (IH s1); [done..| | |done]; [|lia].
        assert (0 < occurrences m (queued s1)); [|lia].
        apply occurrences_elem, elem_of_app. right. by eapply local_items_elem.
      * exfalso. cbn in Hcount. rewrite bool_decide_eq_true_2 in Hcount by done.
        cbn in Hcount. rewrite decide_True in Hcount by done.
        eapply (never_popped m c' ops s1); [done..| | |done]; lia.
Qed.

(** C5.  A mailbox (a non-null address, not queued already) that is pushed
    with the local-affinity hint through a context [c] that is not the
    shared context is, for as long as it is not pushed again, never
    returned by a [Pop] on another context, whatever the calls that follow
    and whatever the other queues hold. *)
Theorem local_affinity s c ctx mailbox post h s' :
  contexts s !! c = Some ctx → mShared ctx = false →
  mailbox ≠ null → mailbox ∉ queued s →
  run (OpPush c mailbox true :: post) s = Returns (h, s') →
  occurrences mailbox (pushed h) = 1 →
  ∀ c', c' ≠ c → (OpPop c', RetMailbox mailbox) ∉ h.
Proof.
  intros Hc Hs Hm Hq%occurrences_not_elem Hrun Hp c' Hne Hev. apply Hne. clear Hne.
  apply run_cons_inv in Hrun as (r & s1 & h' & Ho & Hpost & ->).
  pose proof (call_count _ _ _ _ mailbox Ho Hm) as Hcount.
  apply call_inv in Ho as [-> HPush].
  rewrite (Push_local _ _ _ _ Hc Hs) in HPush. injection HPush as <-.
  cbn in Hp, Hcount. rewrite decide_True in Hp, Hcount by done.
  apply elem_of_cons in Hev as [[=]|Hev].
  eapply (local_mailbox_owner mailbox c c' post); [exact Hpost|done| | | | |exact Hev].
  - apply lookup_insert_eq.
  - cbn. set_solver.
  - lia.
  - lia.
Qed.

Lemma local_affinity_witness :
  (OpPop 2, RetMailbox 1%N)
  ∉ [(OpPush 1 1%N true, RetVoid); (OpPop 2, RetMailbox 5%N);
     (OpPop 2, RetMailbox null); (OpPop 1, RetMailbox 8%N);
     (OpPop 1, RetMailbox 9%N); (OpPop 1, RetMailbox 1%N)].
Proof.
  eapply (local_affinity busy 1
            (mkContext false [8%N; 9%N]
               (YieldImplementation.mk (Some YieldPolicy.YieldStrong) 0 []))
            1%N [OpPop 2; OpPop 2; OpPop 1; OpPop 1; OpPop 1]).
  - vm_compute; reflexivity.
  - reflexivity.
  - discriminate.
  - apply (bool_decide_unpack (1%N ∉ queued busy)). vm_compute. exact I.
  - vm_compute; reflexivity.
  - reflexivity.
  - lia.
Defined.

(** ** Emptiness *)

Lemma Execute_configured y y' :
  YieldImplementation.Execute y = Returns y' →
  is_Some (YieldImplementation.mYieldFunction y').
Proof.
  unfold YieldImplementation.Execute.
  destruct (YieldImplementation.mYieldFunction y); [|done].
  intros [= <-]. by eexists.
Qed.

Lemma idle_call c o s r s1 :
  call o s = Returns (r, s1) → idle c o → starved c s → starved c s1.
Proof.
  intros H%call_inv Hidle (ctx & Hc & [Hs Hf] & Hq & Hw & Hl). destruct o.
  - destruct H as [-> (ctx0 & Hc0 & ->)%InitializeSharedContext_inv].
    cbn in Hidle. exists ctx. cbn. by simplify_map_eq.
  - destruct H as [-> (ctx0 & Hc0 & ->)%InitializeWorkerContext_inv].
    destruct (decide (context = c)) as [->|Hne].
    + simplify_eq. eexists. cbn. rewrite lookup_insert_eq.
      split_and!; [done| |done..]. split; [done|]. by eexists.
    + exists ctx. cbn. by simplify_map_eq.
  - destruct H as [-> ->]. by exists ctx.
  - destruct H as [-> ->]. by exists ctx.
  - destruct H as (b & -> & [-> _]%Empty_inv). by exists ctx.
  - destruct H as [-> ->]. by exists ctx.
  - destruct Hidle.
  - destruct H as (m & -> & (ctx0 & y & Hc0 & Hs0 & Hy & Hcases)%Pop_inv).
    destruct Hcases as [(rest & Hq0 & ->)|[(_ & _ & rest & Hw0 & _)
                       |(-> & _ & _ & _ & ->)]].
    + destruct (decide (context = c)) as [->|Hne]; [congruence|].
      exists ctx. cbn. by simplify_map_eq.
    + congruence.
    + destruct (decide (context = c)) as [->|Hne].
      * simplify_eq. eexists. cbn. rewrite lookup_insert_eq.
        split_and!; [done| |done..]. split; [done|].
        rewrite decide_True in Hy by done. by eapply Execute_configured.
      * exists ctx. cbn. by simplify_map_eq.
Qed.

Lemma idle_run c ops : ∀ s h s',
  run ops s = Returns (h, s') → Forall (idle c) ops → starved c s → starved c s'.
Proof.
  induction ops as [|o ops IH]; intros s h s' Hrun Hidle Hst.
  - by injection Hrun as <- <-.
  - apply run_cons_inv in Hrun as (r & s1 & h' & Ho & Hr & ->).
    apply Forall_cons in Hidle as [Ho' Hidle].
    eapply IH; [done..|]. by eapply idle_call.
Qed.

(** C6.  When [Empty] returns true on a worker context and nothing is pushed
    before that context next calls [Pop] (whatever else the other threads
    do in between: polling, initialising or releasing contexts), that [Pop]
    returns the null pointer.  With [mid] empty this is the immediately
    following [Pop]. *)
Theorem Empty_sound s c ctx s1 mid h s2 :
  contexts s !! c = Some ctx → is_worker ctx →
  Empty c s = Returns (true, s1) →
  Forall (idle c) mid → run mid s1 = Returns (h, s2) →
  ∃ s3, Pop c s2 = Returns (null, s3).
Proof.
  intros Hc Hworker [-> (ctx' & Hc' & Htrue)]%Empty_inv Hidle Hrun.
  simplify_eq. destruct (Htrue eq_refl) as (Hq & Hw & Hl).
  assert (starved c s2) as (ctx2 & Hc2 & [Hs2 [f Hf]] & Hq2 & Hw2 & Hl2).
  { eapply idle_run; [done..|]. exists ctx. split_and!; [done..| |done|done].
    apply Hq, Hworker. }
  eexists. by eapply Pop_none.
Qed.

Lemma Empty_sound_witness :
  ∃ s3, Pop 1 (final (run [OpPop 2; OpEmpty 0; OpWakeAll] demo) demo)
        = Returns (null, s3).
Proof.
  eapply (Empty_sound demo 1
            (mkContext false []
               (YieldImplementation.mk (Some YieldPolicy.YieldStrong) 0 []))
            demo [OpPop 2; OpEmpty 0; OpWakeAll]).
  - vm_compute; reflexivity.
  - split; [reflexivity | eexists; reflexivity].
  - vm_compute; reflexivity.
  - repeat constructor; cbn; lia.
  - vm_compute; reflexivity.
Defined.

(** ** Backoff *)

Lemma escalation_shift (f : YieldPolicy.YieldFunction) (n : N) k :
  (λ i, (f, (n + N.of_nat i)%N)) <$> seq 1 k
  = (λ i, (f, (n + 1 + N.of_nat i)%N)) <$> seq 0 k.
Proof.
  rewrite <- fmap_S_seq, <- list_fmap_compose. apply list_fmap_ext.
  intros i x _. cbn. f_equal. lia.
Qed.

Lemma failed_pops c f k : ∀ s ctx,
  contexts s !! c = Some ctx → mShared ctx = false →
  mLocalWorkQueue ctx = [] → mSharedWorkQueue (this s) = [] →
  YieldImplementation.mYieldFunction (mYield ctx) = Some f →
  lock_free s →
  run (replicate k (OpPop c)) s
  = Returns (replicate k (OpPop c, RetMailbox null),
             mkStore (this s)
               (<[c := mkContext false []
                         (YieldImplementation.mk (Some f)
                            (YieldImplementation.mCounter (mYield ctx) + N.of_nat k)
                            (YieldImplementation.performed (mYield ctx)
                               ++ ((λ i, (f, (YieldImplementation.mCounter (mYield ctx)
                                              + N.of_nat i)%N)) <$> seq 0 k)))]>
                  (contexts s))).
Proof.
  induction k as [|k IH]; intros s ctx Hc Hs Hq Hw Hf Hl.
  - cbn. rewrite N.add_0_r, app_nil_r, <- Hf, <- Hs, <- Hq.
    destruct ctx as [sh q [fn n p]]. cbn. by rewrite store_insert_id.
  - cbn [replicate]. erewrite run_cons;
      [|by eapply call_Pop, Pop_none
       |apply IH; [apply lookup_insert_eq|done..]].
    cbn. rewrite insert_insert_eq, <- (assoc_L (++)), <- escalation_shift. cbn.
    rewrite N.add_0_r.
    by replace (YieldImplementation.mCounter (mYield ctx) + 1 + N.of_nat k)%N
      with (YieldImplementation.mCounter (mYield ctx) + N.pos (Pos.of_succ_nat k))%N
      by lia.
Qed.

(** C7.  A call of [Pop] that returns a mailbox leaves the caller's yield
    state reset: the counter at zero and no escalation step performed by the
    call.  A call that returns the null pointer has performed exactly one
    step, the one for the counter value it found, and has advanced the
    counter by one.  Hence after a successful [Pop], [k] further polls that
    find the queues empty perform the steps for the counters 0, 1, ..,
    [k-1]. *)
Theorem Pop_backoff s c mailbox s' :
  Pop c s = Returns (mailbox, s') →
  ∃ ctx ctx',
    contexts s !! c = Some ctx ∧ contexts s' !! c = Some ctx' ∧
    (mailbox ≠ null →
       mYield ctx' = YieldImplementation.Reset (mYield ctx)
       ∧ YieldImplementation.mCounter (mYield ctx') = 0%N
       ∧ YieldImplementation.performed (mYield ctx')
         = YieldImplementation.performed (mYield ctx)
       ∧ ∀ f k,
           YieldImplementation.mYieldFunction (mYield ctx) = Some f →
           mLocalWorkQueue ctx' = [] → mSharedWorkQueue (this s') = [] →
           lock_free s' →
           ∃ s'' ctx'',
             run (replicate k (OpPop c)) s'
             = Returns (replicate k (OpPop c, RetMailbox null), s'')
             ∧ contexts s'' !! c = Some ctx''
             ∧ YieldImplementation.performed (mYield ctx'')
               = YieldImplementation.performed (mYield ctx)
                 ++ ((λ i, (f, N.of_nat i)) <$> seq 0 k))
    ∧ (mailbox = null →
       ∃ f,
         YieldImplementation.mYieldFunction (mYield ctx) = Some f
         ∧ YieldImplementation.Execute (mYield ctx) = Returns (mYield ctx')
         ∧ YieldImplementation.performed (mYield ctx')
           = YieldImplementation.performed (mYield ctx)
             ++ [(f, YieldImplementation.mCounter (mYield ctx))]
         ∧ YieldImplementation.mCounter (mYield ctx')
           = (YieldImplementation.mCounter (mYield ctx) + 1)%N).
Proof.
  intros (ctx & y & Hc & Hs & Hy & Hcases)%Pop_inv.
  assert (∃ q, contexts s' !! c = Some (mkContext false q y)) as (q & Hc').
  { destruct Hcases as [(rest & _ & ->)|[(_ & _ & rest & _ & ->)|(_ & _ & _ & _ & ->)]];
      eexists; apply lookup_insert_eq. }
  exists ctx, (mkContext false q y). split_and!; [done..| |].
  - intros Hm. rewrite decide_False in Hy by done. subst y. cbn.
    split_and!; [done..|]. intros f k Hf Hq Hw Hl. subst q.
    eexists _, _. split_and!.
    + by apply (failed_pops c f).
    + apply lookup_insert_eq.
    + done.
  - intros ->. rewrite decide_True in Hy by done. cbn.
    unfold YieldImplementation.Execute in *.
    destruct (YieldImplementation.mYieldFunction (mYield ctx)) as [f|]; [|done].
    injection Hy as <-. by exists f.
Qed.

Lemma Pop_backoff_witness :
  ∃ ctx ctx',
    contexts busy !! 1 = Some ctx
    ∧ contexts (final (run [OpPop 2; OpPop 2; OpPop 2] busy) busy) !! 2 = Some ctx'
    ∧ YieldImplementation.performed (mYield ctx')
      = [(YieldPolicy.YieldStrong, 0%N); (YieldPolicy.YieldStrong, 1%N)].
Proof.
  destruct (Pop_backoff
              (final (run [OpPop 2; OpPop 2] busy) busy) 2 null
              (final (run [OpPop 2; OpPop 2; OpPop 2] busy) busy))
    as (ctx & ctx' & Hc & Hc' & _ & Hnull).
  - vm_compute; reflexivity.
  - destruct (Hnull eq_refl) as (f & Hf & _ & Hp & _).
    vm_compute in Hc. injection Hc as <-.
    eexists _, ctx'. split_and!; [vm_compute; reflexivity|exact Hc'|].
    rewrite Hp. vm_compute in Hf. by injection Hf as <-.
Defined.

(** ** Initialisation and release *)

(** C8.  [InitializeWorkerContext] clears the shared flag of the context
    and sets its yield function to the curve of the scheduler's strategy
    selector: Polite, Strong or Aggressive for the selector of that name,
    and Polite for any other selector value.  The context's queue, counter
    and every other object are left as they were. *)
Theorem InitializeWorkerContext_configures s c ctx :
  contexts s !! c = Some ctx →
  ∃ ctx',
    InitializeWorkerContext c s
    = Returns ((), mkStore (this s) (<[c := ctx']> (contexts s)))
    ∧ mShared ctx' = false
    ∧ mLocalWorkQueue ctx' = mLocalWorkQueue ctx
    ∧ YieldImplementation.mCounter (mYield ctx')
      = YieldImplementation.mCounter (mYield ctx)
    ∧ YieldImplementation.mYieldFunction (mYield ctx')
      = Some (curve_of (mYieldStrategy (this s)))
    ∧ (mYieldStrategy (this s) = YIELD_STRATEGY_POLITE →
       YieldImplementation.mYieldFunction (mYield ctx')
       = Some YieldPolicy.YieldPolite)
    ∧ (mYieldStrategy (this s) = YIELD_STRATEGY_STRONG →
       YieldImplementation.mYieldFunction (mYield ctx')
       = Some YieldPolicy.YieldStrong)
    ∧ (mYieldStrategy (this s) = YIELD_STRATEGY_AGGRESSIVE →
       YieldImplementation.mYieldFunction (mYield ctx')
       = Some YieldPolicy.YieldAggressive)
    ∧ (∀ value, mYieldStrategy (this s) = YIELD_STRATEGY_unrecognized value →
       YieldImplementation.mYieldFunction (mYield ctx')
       = Some YieldPolicy.YieldPolite).
Proof.
  intros Hc. eexists. split; [by apply InitializeWorkerContext_Returns|].
  cbn. split_and!; try done; try (by intros ->). by intros value ->.
Qed.

Lemma InitializeWorkerContext_configures_witness :
  ∃ ctx',
    InitializeWorkerContext 3
      (fresh (YIELD_STRATEGY_unrecognized 17) {[3]})
    = Returns ((), mkStore (NonBlockingQueue_ctor (YIELD_STRATEGY_unrecognized 17))
                     (<[3 := ctx']> (contexts (fresh (YIELD_STRATEGY_unrecognized 17) {[3]}))))
    ∧ mShared ctx' = false
    ∧ YieldImplementation.mYieldFunction (mYield ctx') = Some YieldPolicy.YieldPolite.
Proof.
  destruct (InitializeWorkerContext_configures
              (fresh (YIELD_STRATEGY_unrecognized 17) {[3]}) 3 ContextType_ctor)
    as (ctx' & H1 & H2 & _ & _ & _ & _ & _ & _ & H9).
  - vm_compute; reflexivity.
  - exists ctx'. split_and!; [exact H1|exact H2|exact (H9 17%Z eq_refl)].
Defined.

(** C9.  [WakeAll], [ReleaseSharedContext] and [ReleaseWorkerContext] return
    with the store exactly as it was: the scheduler object (shared queue,
    lock, strategy selector) and every context (shared flag, queue, yield
    state), the given one included. *)
Theorem release_and_wake_do_nothing s c :
  WakeAll s = Returns ((), s)
  ∧ ReleaseSharedContext c s = Returns ((), s)
  ∧ ReleaseWorkerContext c s = Returns ((), s)
  ∧ call OpWakeAll s = Returns (RetVoid, s)
  ∧ call (OpReleaseSharedContext c) s = Returns (RetVoid, s)
  ∧ call (OpReleaseWorkerContext c) s = Returns (RetVoid, s).
Proof. by split_and!. Qed.

(** ** The shared context has no local work *)

Lemma kept_fresh yieldStrategy addrs : kept ∅ ∅ (fresh yieldStrategy addrs).
Proof.
  split; [done|]. intros c ctx [_ <-]%lookup_gset_to_gmap_Some.
  split_and!; [set_solver..|done].
Qed.

Lemma kept_insert shared workers s q c ctx ctx' :
  kept shared workers s → contexts s !! c = Some ctx →
  SpinLock.held (mSharedWorkQueueSpinLock q) = false →
  mShared ctx' = mShared ctx →
  (mShared ctx = true → mLocalWorkQueue ctx' = []) →
  (c ∈ shared ∨ c ∈ workers) →
  kept shared workers (mkStore q (<[c := ctx']> (contexts s))).
Proof.
  intros [Hl Hk] Hc Hq Hs Hloc Hinit. split; [done|]. cbn.
  intros c0 ctx0 [[-> <-]|[Hne Hc0]]%lookup_insert_Some; [|by apply Hk].
  destruct (Hk _ _ Hc) as (H1 & H2 & H3). rewrite Hs. split_and!.
  - intros [Ht _]%H1. split; [done|]. by apply Hloc.
  - done.
  - intros ? ?. by destruct Hinit.
Qed.

Lemma contract_call o ops shared workers s r s1 :
  call o s = Returns (r, s1) →
  contract shared workers (o :: ops) = true → kept shared workers s →
  ∃ shared' workers', contract shared' workers' ops = true ∧ kept shared' workers' s1.
Proof.
  intros H%call_inv Hcontract Hkept. pose proof Hkept as [Hl Hk].
  destruct o; cbn [contract] in Hcontract;
    try apply andb_true_iff in Hcontract as [Hpre%bool_decide_eq_true Hcontract].
  - destruct H as [-> (ctx & Hc & ->)%InitializeSharedContext_inv].
    destruct Hpre as [Hns Hnw]. destruct (Hk _ _ Hc) as (_ & _ & [Hs Hq]); [done..|].
    eexists _, _. split; [done|]. split; [done|]. cbn.
    intros c0 ctx0 [[-> <-]|[Hne Hc0]]%lookup_insert_Some.
    + cbn. split_and!; [done|done|set_solver].
    + destruct (Hk _ _ Hc0) as (H1 & H2 & H3). split_and!; [|done|]; set_solver.
  - destruct H as [-> (ctx & Hc & ->)%InitializeWorkerContext_inv].
    destruct Hpre as [Hns Hnw]. destruct (Hk _ _ Hc) as (_ & _ & [Hs Hq]); [done..|].
    eexists _, _. split; [done|]. split; [done|]. cbn.
    intros c0 ctx0 [[-> <-]|[Hne Hc0]]%lookup_insert_Some.
    + cbn. split_and!; [done|done|set_solver].
    + destruct (Hk _ _ Hc0) as (H1 & H2 & H3). split_and!; [done| |]; set_solver.
  - destruct H as [-> ->]. eauto.
  - destruct H as [-> ->]. eauto.
  - destruct H as (b & -> & [-> _]%Empty_inv). eauto.
  - destruct H as [-> ->]. eauto.
  - destruct H as [-> (ctx & Hc & [(-> & Hs & ->)|(Hb & _ & ->)])%Push_inv];
      exists shared, workers; (split; [done|]).
    + eapply kept_insert; [done..| |done]. congruence.
    + split; [by open_store s|]. done.
  - destruct H as (m & -> & (ctx & y & Hc & Hs & _ & Hcases)%Pop_inv).
    exists shared, workers. split; [done|].
    destruct Hcases as [(rest & _ & ->)|[(_ & _ & rest & _ & ->)|(_ & _ & _ & _ & ->)]];
      (eapply kept_insert; [done|done| |by rewrite Hs|congruence|by right]);
      by open_store s.
Qed.

Lemma contract_run ops : ∀ shared workers s h s',
  run ops s = Returns (h, s') →
  contract shared workers ops = true → kept shared workers s →
  ∃ shared' workers', kept shared' workers' s'.
Proof.
  induction ops as [|o ops IH]; intros shared workers s h s' Hrun Hcontract Hkept.
  - injection Hrun as <- <-. eauto.
  - apply run_cons_inv in Hrun as (r & s1 & h' & Ho & Hr & ->).
    destruct (contract_call _ _ _ _ _ _ _ Ho Hcontract Hkept)
      as (shared' & workers' & Hcontract' & Hkept').
    by eapply IH.
Qed.

Lemma kept_shared_flag shared workers s c ctx :
  kept shared workers s → contexts s !! c = Some ctx → mShared ctx = true →
  mLocalWorkQueue ctx = [].
Proof.
  intros [_ Hk] Hc Hs. destruct (Hk _ _ Hc) as (H1 & H2 & H3).
  destruct (decide (c ∈ shared)) as [Hin|Hnin]; [by apply H1|].
  destruct (decide (c ∈ workers)) as [Hin|Hnin']; [by rewrite H2 in Hs|].
  by apply H3.
Qed.




(** In a store reached under the contract every queue that holds work can
    be popped, as soon as some context is there to pop the shared queue. *)
Lemma reachable_drainable s :
  reachable s →
  (mSharedWorkQueue (this s) ≠ [] →
   ∃ c ctx, contexts s !! c = Some ctx ∧ mShared ctx = false) →
  drainable s.
Proof.
  intros (yieldStrategy & addrs & ops & h & Hcontract & Hrun) Hworker.
  destruct (contract_run _ _ _ _ _ _ Hrun Hcontract (kept_fresh _ _))
    as (shared & workers & Hkept).
  split_and!; [by destruct Hkept|  |done].
  intros c ctx Hc Hq. destruct (mShared ctx) eqn:Hs; [|done].
  destruct Hq. by eapply kept_shared_flag.
Qed.

(** * Further properties of the member functions *)

(** ** What a call leaves alone *)

Lemma call_effect o s r s' :
  call o s = Returns (r, s') →
  mYieldStrategy (this s') = mYieldStrategy (this s)
  ∧ mSharedWorkQueueSpinLock (this s') = mSharedWorkQueueSpinLock (this s)
  ∧ (¬ is_Push_or_Pop o → mSharedWorkQueue (this s') = mSharedWorkQueue (this s))
  ∧ (contexts s' = contexts s
     ∨ ∃ c ctx ctx',
         op_context o = Some c ∧ contexts s !! c = Some ctx
         ∧ contexts s' = <[c := ctx']> (contexts s)
         ∧ (¬ is_initialiser o → mShared ctx' = mShared ctx)
         ∧ (¬ is_Push_or_Pop o → mLocalWorkQueue ctx' = mLocalWorkQueue ctx)).
Proof.
  intros H%call_inv. destruct o.
  - destruct H as [-> (ctx & Hc & ->)%InitializeSharedContext_inv]. cbn.
    split_and!; [done..|]. right. eexists _, ctx, _.
    split_and!; [done..| |done]. by intros [].
  - destruct H as [-> (ctx & Hc & ->)%InitializeWorkerContext_inv]. cbn.
    split_and!; [done..|]. right. eexists _, ctx, _.
    split_and!; [done..| |done]. by intros [].
  - destruct H as [-> ->]. split_and!; auto.
  - destruct H as [-> ->]. split_and!; auto.
  - destruct H as (b & -> & [-> _]%Empty_inv). split_and!; auto.
  - destruct H as [-> ->]. split_and!; auto.
  - destruct H as [-> (ctx & Hc & [(-> & Hs & ->)|(Hb & Hl & ->)])%Push_inv]; cbn.
    + split_and!; [done..|]. right. eexists _, ctx, _.
      split_and!; [done..|]. by intros [].
    + split_and!; [done|done|by intros []|by left].
  - destruct H as (m & -> & (ctx & y & Hc & Hs & _ & Hcases)%Pop_inv).
    destruct Hcases as [(rest & _ & ->)|[(_ & _ & rest & _ & ->)|(_ & _ & _ & _ & ->)]];
      cbn; (split_and!; [done|done|by intros []|]);
      right; eexists _, ctx, _; (split_and!; [done..|by intros []]).
Qed.

(** X3.  The calls made on other contexts leave a context object exactly as
    it is: flag, queue and yield state.  Nothing takes work from, or gives
    work to, the queue of a context but the calls on that context. *)
Theorem context_is_private ops c s h s' :
  run ops s = Returns (h, s') →
  Forall (λ o, op_context o ≠ Some c) ops →
  contexts s' !! c = contexts s !! c.
Proof.
  revert s h. induction ops as [|o ops IH]; intros s h Hrun Hothers.
  - by injection Hrun as <- <-.
  - apply run_cons_inv in Hrun as (r & s1 & h' & Ho & Hr & ->).
    apply Forall_cons in Hothers as [Hother Hothers].
    rewrite (IH _ _ Hr Hothers).
    destruct (call_effect _ _ _ _ Ho)
      as (_ & _ & _ & [->|(c0 & ctx & ctx' & Hop & _ & -> & _)]); [done|].
    apply lookup_insert_ne. congruence.
Qed.

Lemma context_is_private_witness :
  contexts (final (run [OpPush 2 6%N true; OpPop 2; OpPop 2; OpPush 0 7%N false;
                        OpEmpty 2] busy) busy) !! 1
  = contexts busy !! 1.
Proof.
  eapply (context_is_private
            [OpPush 2 6%N true; OpPop 2; OpPop 2; OpPush 0 7%N false; OpEmpty 2]).
  - vm_compute; reflexivity.
  - repeat constructor; discriminate.
Defined.

(** X4.  Every execution that runs to its end leaves the strategy selector
    as constructed and the spin lock as it found it: each [Lock] taken by a
    call is matched by an [Unlock] before the call returns. *)
Theorem selector_and_lock_are_kept ops s h s' :
  run ops s = Returns (h, s') →
  mYieldStrategy (this s') = mYieldStrategy (this s)
  ∧ mSharedWorkQueueSpinLock (this s') = mSharedWorkQueueSpinLock (this s).
Proof.
  revert s h. induction ops as [|o ops IH]; intros s h Hrun.
  - by injection Hrun as <- <-.
  - apply run_cons_inv in Hrun as (r & s1 & h' & Ho & Hr & ->).
    destruct (IH _ _ Hr) as [-> ->].
    by destruct (call_effect _ _ _ _ Ho) as (-> & -> & _).
Qed.

Lemma selector_and_lock_are_kept_witness :
  mYieldStrategy
    (this (final (run [OpPush 2 6%N false; OpPop 2; OpPop 1; OpEmpty 2] busy) busy))
  = YIELD_STRATEGY_STRONG
  ∧ mSharedWorkQueueSpinLock
      (this (final (run [OpPush 2 6%N false; OpPop 2; OpPop 1; OpEmpty 2] busy) busy))
    = SpinLock.mk false.
Proof.
  eapply (selector_and_lock_are_kept
            [OpPush 2 6%N false; OpPop 2; OpPop 1; OpEmpty 2] busy).
  vm_compute; reflexivity.
Defined.

(** X6.  Only [Push] and [Pop] move mailboxes.  An execution without them
    leaves the shared queue and the queue of every context as they are; in
    particular neither initialiser empties the queue of a context that
    holds work, and releasing a context does not flush it. *)
Theorem only_Push_and_Pop_move_mailboxes ops s h s' :
  run ops s = Returns (h, s') →
  Forall (λ o, ¬ is_Push_or_Pop o) ops →
  mSharedWorkQueue (this s') = mSharedWorkQueue (this s)
  ∧ ∀ c, mLocalWorkQueue <$> contexts s' !! c = mLocalWorkQueue <$> contexts s !! c.
Proof.
  revert s h. induction ops as [|o ops IH]; intros s h Hrun Hquiet.
  - by injection Hrun as <- <-.
  - apply run_cons_inv in Hrun as (r & s1 & h' & Ho & Hr & ->).
    apply Forall_cons in Hquiet as [Hq Hquiet].
    destruct (IH _ _ Hr Hquiet) as [-> Hlocal].
    destruct (call_effect _ _ _ _ Ho) as (_ & _ & Hw & Hcs).
    split; [by apply Hw|]. intros c. rewrite Hlocal.
    destruct Hcs as [->|(c0 & ctx & ctx' & _ & Hc0 & -> & _ & Hsame)]; [done|].
    destruct (decide (c0 = c)) as [->|Hne].
    + rewrite lookup_insert_eq, Hc0. cbn. f_equal. by apply Hsame.
    + by rewrite lookup_insert_ne.
Qed.

Lemma only_Push_and_Pop_move_mailboxes_witness :
  mSharedWorkQueue
    (this (final (run [OpInitializeSharedContext 1; OpReleaseWorkerContext 1;
                       OpInitializeWorkerContext 1; OpEmpty 2; OpWakeAll] busy) busy))
  = [5%N]
  ∧ ∀ c, mLocalWorkQueue
           <$> contexts (final (run [OpInitializeSharedContext 1;
                                     OpReleaseWorkerContext 1;
                                     OpInitializeWorkerContext 1; OpEmpty 2;
                                     OpWakeAll] busy) busy) !! c
         = mLocalWorkQueue <$> contexts busy !! c.
Proof.
  eapply (only_Push_and_Pop_move_mailboxes
            [OpInitializeSharedContext 1; OpReleaseWorkerContext 1;
             OpInitializeWorkerContext 1; OpEmpty 2; OpWakeAll] busy).
  - vm_compute; reflexivity.
  - repeat constructor; by intros [].
Defined.

(** X7.  Only the two initialisers write the shared flag.  An execution
    without them leaves the flag of every context as it is: once
    initialised, a worker context stays a worker context and the shared
    context stays the shared context. *)
Theorem only_initialisers_set_the_flag ops s h s' :
  run ops s = Returns (h, s') →
  Forall (λ o, ¬ is_initialiser o) ops →
  ∀ c, mShared <$> contexts s' !! c = mShared <$> contexts s !! c.
Proof.
  revert s h. induction ops as [|o ops IH]; intros s h Hrun Hquiet c.
  - by injection Hrun as <- <-.
  - apply run_cons_inv in Hrun as (r & s1 & h' & Ho & Hr & ->).
    apply Forall_cons in Hquiet as [Hq Hquiet].
    rewrite (IH _ _ Hr Hquiet).
    destruct (call_effect _ _ _ _ Ho)
      as (_ & _ & _ & [->|(c0 & ctx & ctx' & _ & Hc0 & -> & Hsame & _)]); [done|].
    destruct (decide (c0 = c)) as [->|Hne].
    + rewrite lookup_insert_eq, Hc0. cbn. f_equal. by apply Hsame.
    + by rewrite lookup_insert_ne.
Qed.

Lemma only_initialisers_set_the_flag_witness :
  mShared
    <$> contexts (final (run [OpPush 0 6%N true; OpPop 1; OpPop 2; OpPop 2;
                              OpReleaseSharedContext 0] busy) busy) !! 0
  = mShared <$> contexts busy !! 0.
Proof.
  eapply (only_initialisers_set_the_flag
            [OpPush 0 6%N true; OpPop 1; OpPop 2; OpPop 2; OpReleaseSharedContext 0]
            busy).
  - vm_compute; reflexivity.
  - repeat constructor; by intros [].
Defined.

(** ** One strategy for every worker *)

Lemma Execute_keeps_function y y' :
  YieldImplementation.Execute y = Returns y' →
  YieldImplementation.mYieldFunction y' = YieldImplementation.mYieldFunction y.
Proof.
  unfold YieldImplementation.Execute.
  destruct (YieldImplementation.mYieldFunction y) eqn:E; [|done].
  by intros [= <-].
Qed.

Lemma call_keeps_curve o s r s' :
  call o s = Returns (r, s') →
  (∀ c ctx f, contexts s !! c = Some ctx →
     YieldImplementation.mYieldFunction (mYield ctx) = Some f →
     f = curve_of (mYieldStrategy (this s))) →
  ∀ c ctx f, contexts s' !! c = Some ctx →
    YieldImplementation.mYieldFunction (mYield ctx) = Some f →
    f = curve_of (mYieldStrategy (this s')).
Proof.
  intros Ho Hinv c ctx' f.
  destruct (call_effect _ _ _ _ Ho) as (-> & _). apply call_inv in Ho.
  destruct o.
  - destruct Ho as [-> (ctx & Hc & ->)%InitializeSharedContext_inv]. cbn.
    intros [[-> <-]|[_ Hc']]%lookup_insert_Some; cbn; eauto.
  - destruct Ho as [-> (ctx & Hc & ->)%InitializeWorkerContext_inv]. cbn.
    intros [[-> <-]|[_ Hc']]%lookup_insert_Some; cbn; eauto. congruence.
  - destruct Ho as [-> ->]. eauto.
  - destruct Ho as [-> ->]. eauto.
  - destruct Ho as (b & -> & [-> _]%Empty_inv). eauto.
  - destruct Ho as [-> ->]. eauto.
  - destruct Ho as [-> (ctx & Hc & [(-> & Hs & ->)|(Hb & Hl & ->)])%Push_inv]; cbn;
      [|by eauto].
    intros [[-> <-]|[_ Hc']]%lookup_insert_Some; cbn; eauto.
  - destruct Ho as (m & -> & (ctx & y & Hc & Hs & Hy & Hcases)%Pop_inv).
    assert (YieldImplementation.mYieldFunction y
            = YieldImplementation.mYieldFunction (mYield ctx)) as Hfn.
    { destruct (decide (m = null)); [by apply Execute_keeps_function|by subst y]. }
    destruct Hcases as [(rest & _ & ->)|[(_ & _ & rest & _ & ->)|(_ & _ & _ & _ & ->)]];
      cbn; (intros [[-> <-]|[_ Hc']]%lookup_insert_Some; cbn; [|by eauto]);
      rewrite Hfn; eauto.
Qed.

(** X5.  In whatever order contexts are initialised and used, every context
    of a scheduler that has a yield function has the curve of the selector
    the scheduler was constructed with: the strategy is applied identically
    to every worker. *)
Theorem one_curve_for_all_workers yieldStrategy addrs ops h s :
  run ops (fresh yieldStrategy addrs) = Returns (h, s) →
  ∀ c ctx f, contexts s !! c = Some ctx →
    YieldImplementation.mYieldFunction (mYield ctx) = Some f →
    f = curve_of yieldStrategy.
Proof.
  intros Hrun.
  assert (∀ ops s0 h s,
            run ops s0 = Returns (h, s) →
            (∀ c ctx f, contexts s0 !! c = Some ctx →
               YieldImplementation.mYieldFunction (mYield ctx) = Some f →
               f = curve_of (mYieldStrategy (this s0))) →
            mYieldStrategy (this s) = mYieldStrategy (this s0)
            ∧ ∀ c ctx f, contexts s !! c = Some ctx →
                YieldImplementation.mYieldFunction (mYield ctx) = Some f →
                f = curve_of (mYieldStrategy (this s))) as Hgen.
  { clear. induction ops as [|o ops IH]; intros s0 h s Hrun Hinv.
    - by injection Hrun as <- <-.
    - apply run_cons_inv in Hrun as (r & s1 & h' & Ho & Hr & ->).
      destruct (IH _ _ _ Hr (call_keeps_curve _ _ _ _ Ho Hinv)) as [-> Hinv'].
      split; [|done]. by destruct (call_effect _ _ _ _ Ho) as (-> & _). }
  destruct (Hgen _ _ _ _ Hrun) as [Hsel Hall].
  - by intros c ctx f [_ <-]%lookup_gset_to_gmap_Some.
  - cbn in Hsel. rewrite <- Hsel. exact Hall.
Qed.

Lemma one_curve_for_all_workers_witness :
  ∃ ctx f,
    contexts (final (run [OpInitializeWorkerContext 4; OpPush 4 3%N true;
                          OpInitializeWorkerContext 5; OpPop 5; OpPop 4;
                          OpInitializeSharedContext 5]
                         (fresh YIELD_STRATEGY_AGGRESSIVE {[4; 5; 6]}))
                    (fresh YIELD_STRATEGY_AGGRESSIVE ∅)) !! 5 = Some ctx
    ∧ YieldImplementation.mYieldFunction (mYield ctx) = Some f
    ∧ f = YieldPolicy.YieldAggressive.
Proof.
  eexists _, _. split; [vm_compute; reflexivity|]. split; [reflexivity|].
  eapply (one_curve_for_all_workers YIELD_STRATEGY_AGGRESSIVE {[4; 5; 6]}
            [OpInitializeWorkerContext 4; OpPush 4 3%N true;
             OpInitializeWorkerContext 5; OpPop 5; OpPop 4;
             OpInitializeSharedContext 5]) with (c := 5).
  - vm_compute; reflexivity.
  - vm_compute; reflexivity.
  - reflexivity.
Defined.

(** ** The shared context *)

(** X1.  [InitializeSharedContext] sets the flag of the context and nothing
    else: its queue and yield state stay as they were.  From then on a
    [Push] through the context appends to the shared queue whatever the
    hint, and a [Pop] on it fails the assertion. *)
Theorem InitializeSharedContext_then s c ctx :
  contexts s !! c = Some ctx →
  InitializeSharedContext c s
  = Returns ((), mkStore (this s) (<[c := set_mShared true ctx]> (contexts s)))
  ∧ (InitializeSharedContext c ≫= λ _, Pop c) s = Fails AssertionFailure
  ∧ (lock_free s →
     ∀ mailbox localThread,
       (InitializeSharedContext c ≫= λ _, Push c mailbox localThread) s
       = Returns ((), mkStore
            (set_mSharedWorkQueue (mSharedWorkQueue (this s) ++ [mailbox]) (this s))
            (<[c := set_mShared true ctx]> (contexts s)))).
Proof.
  intros Hc. pose proof (InitializeSharedContext_Returns _ _ _ Hc) as Hinit.
  split_and!; [done| |].
  - erewrite bind_Returns by done. eapply Pop_on_shared; [apply lookup_insert_eq|done].
  - intros Hl mailbox localThread. erewrite bind_Returns by done.
    erewrite Push_shared; [done|apply lookup_insert_eq| |done].
    cbn. by destruct localThread.
Qed.

Lemma InitializeSharedContext_then_witness :
  (InitializeSharedContext 1 ≫= λ _, Push 1 6%N true) busy
  = Returns ((), mkStore (set_mSharedWorkQueue [5%N; 6%N] (this busy))
                   (<[1 := mkContext true [8%N; 9%N]
                             (YieldImplementation.mk (Some YieldPolicy.YieldStrong) 0 [])]>
                      (contexts busy))).
Proof.
  destruct (InitializeSharedContext_then busy 1
              (mkContext false [8%N; 9%N]
                 (YieldImplementation.mk (Some YieldPolicy.YieldStrong) 0 [])))
    as (_ & _ & H).
  - vm_compute; reflexivity.
  - apply H. reflexivity.
Defined.

(** ** [Empty] against [Pop] *)

(** X2.  On a worker context, with non-null mailboxes at the head of its
    queue and of the shared queue, [Empty] answers for the next [Pop]: it
    returns true exactly when that [Pop] returns no mailbox, and it leaves
    the store, the lock included, as it found it. *)
Theorem Empty_agrees_with_Pop s c ctx :
  contexts s !! c = Some ctx → is_worker ctx → lock_free s →
  null ∉ mLocalWorkQueue ctx ++ mSharedWorkQueue (this s) →
  ∃ b mailbox s',
    Empty c s = Returns (b, s) ∧ Pop c s = Returns (mailbox, s')
    ∧ (b = true ↔ mailbox = null).
Proof.
  intros Hc [Hs [f Hf]] Hl Hnull.
  destruct (mLocalWorkQueue ctx) as [|x rest] eqn:Hq.
  - destruct (mSharedWorkQueue (this s)) as [|x rest] eqn:Hw.
    + eexists true, null, _. split_and!; [|by eapply Pop_none|done].
      erewrite Empty_shared_queue; [by rewrite Hw|done|by right|done].
    + assert (x ≠ null) as Hx by set_solver.
      eexists false, x, _. split_and!; [|by eapply Pop_shared|done].
      erewrite Empty_shared_queue; [by rewrite Hw|done|by right|done].
  - assert (x ≠ null) as Hx by set_solver.
    eexists false, x, _. split_and!; [|by eapply Pop_local|done].
    eapply Empty_local_work; [done..|]. by rewrite Hq.
Qed.

Lemma Empty_agrees_with_Pop_witness :
  ∃ b mailbox s',
    Empty 2 busy = Returns (b, busy) ∧ Pop 2 busy = Returns (mailbox, s')
    ∧ (b = true ↔ mailbox = null).
Proof.
  eapply (Empty_agrees_with_Pop busy 2
            (mkContext false []
               (YieldImplementation.mk (Some YieldPolicy.YieldStrong) 0 []))).
  - vm_compute; reflexivity.
  - split; [reflexivity | eexists; reflexivity].
  - reflexivity.
  - apply (bool_decide_unpack (null ∉ [] ++ [5%N])). vm_compute. exact I.
Defined.

(** ** Null pointers *)

(** X10.  Whatever is pushed and whatever the queues hold at the start, an
    execution loses nothing but null pointers: the mailboxes queued at the
    start and those pushed are the successful pops, what is still queued,
    and null pointers that were taken out of a queue. *)
Theorem only_null_pointers_are_lost ops s h s' :
  run ops s = Returns (h, s') →
  ∃ nulls, Forall (λ x, x = null) nulls
           ∧ queued s ++ pushed h ≡ₚ nulls ++ popped h ++ queued s'.
Proof.
  revert s h. induction ops as [|o ops IH]; intros s h Hrun.
  - injection Hrun as <- <-. exists []. split; [done|]. cbn. by rewrite app_nil_r.
  - apply run_cons_inv in Hrun as (r & s1 & h' & Ho & Hr & ->).
    destruct (call_conserves_nulls _ _ _ _ Ho) as (n1 & Hn1 & _ & Hstep).
    destruct (IH _ _ Hr) as (n2 & Hn2 & Hrest).
    exists (n1 ++ n2). split; [by apply Forall_app|].
    change ((o, r) :: h') with ([(o, r)] ++ h').
    rewrite pushed_app, popped_app.
    rewrite (assoc_L (++) (queued s)), Hstep, <- !(assoc_L (++)), Hrest.
    solve_Permutation.
Qed.

Lemma only_null_pointers_are_lost_witness :
  ∃ nulls, Forall (λ x, x = null) nulls
           ∧ queued busy ++ [null; 3%N] ≡ₚ nulls ++ [8%N; 9%N; 3%N] ++ [5%N].
Proof.
  edestruct (only_null_pointers_are_lost
               [OpPush 1 null true; OpPush 1 3%N true;
                OpPop 1; OpPop 1; OpPop 1; OpPop 1] busy) as (nulls & H).
  - vm_compute; reflexivity.
  - exists nulls. exact H.
Defined.

(** ** The lock *)

Lemma Push_lock_held s c ctx mailbox localThread :
  contexts s !! c = Some ctx → localThread && negb (mShared ctx) = false →
  ¬ lock_free s →
  Push c mailbox localThread s = Fails SpinsForever.
Proof.
  intros Hc Hb Hl. unfold Push. erewrite bind_Returns by by apply load_Returns.
  rewrite Hb. erewrite bind_Fails; [done|]. by apply Lock_held.
Qed.

Lemma Empty_lock_held s c ctx :
  contexts s !! c = Some ctx →
  mShared ctx = true ∨ mLocalWorkQueue ctx = [] →
  ¬ lock_free s →
  Empty c s = Fails SpinsForever.
Proof.
  intros Hc Hor Hl. unfold Empty. erewrite bind_Returns by by apply load_Returns.
  erewrite (bind_Returns _ _ s false s).
  - erewrite bind_Fails; [done|]. by apply Lock_held.
  - destruct (mShared ctx); [done|]. destruct Hor as [|Hq]; [done|].
    cbn. erewrite bind_Returns by by apply load_Returns. by rewrite Hq.
Qed.

(** X11.  The calls that stay on the caller's own queue take no lock: while
    another thread holds the spin lock, a [Push] with the hint, a [Pop] that
    finds local work and an [Empty] that finds local work return all the
    same, on a context that is not the shared context.  The calls that need
    the shared queue (a [Push] without the hint, a [Pop] or an [Empty] with
    no local work) wait for the lock. *)
Theorem local_path_takes_no_lock s c ctx :
  contexts s !! c = Some ctx → mShared ctx = false → ¬ lock_free s →
  (∀ mailbox,
     Push c mailbox true s
     = Returns ((), mkStore (this s)
          (<[c := set_mLocalWorkQueue (mLocalWorkQueue ctx ++ [mailbox]) ctx]>
             (contexts s)))
     ∧ Push c mailbox false s = Fails SpinsForever)
  ∧ (∀ mailbox rest, mLocalWorkQueue ctx = mailbox :: rest → mailbox ≠ null →
       Pop c s
       = Returns (mailbox, mkStore (this s)
            (<[c := mkContext false rest (YieldImplementation.Reset (mYield ctx))]>
               (contexts s)))
       ∧ Empty c s = Returns (false, s))
  ∧ (mLocalWorkQueue ctx = [] →
       Pop c s = Fails SpinsForever ∧ Empty c s = Fails SpinsForever).
Proof.
  intros Hc Hs Hl. split_and!.
  - intros mailbox. split; [by apply Push_local|by eapply Push_lock_held].
  - intros mailbox rest Hq Hm. split; [by apply Pop_local|].
    eapply Empty_local_work; [done..|]. by rewrite Hq.
  - intros Hq. split; [by eapply Pop_lock_held|eapply Empty_lock_held; eauto].
Qed.

Lemma local_path_takes_no_lock_witness :
  Pop 1 (mkStore (set_mSharedWorkQueueSpinLock (SpinLock.mk true) (this busy))
                 (contexts busy))
  = Returns (8%N,
             mkStore (set_mSharedWorkQueueSpinLock (SpinLock.mk true) (this busy))
               (<[1 := mkContext false [9%N]
                         (YieldImplementation.mk (Some YieldPolicy.YieldStrong) 0 [])]>
                  (contexts busy))).
Proof.
  destruct (local_path_takes_no_lock
              (mkStore (set_mSharedWorkQueueSpinLock (SpinLock.mk true) (this busy))
                       (contexts busy)) 1
              (mkContext false [8%N; 9%N]
                 (YieldImplementation.mk (Some YieldPolicy.YieldStrong) 0 [])))
    as (_ & H & _).
  - vm_compute; reflexivity.
  - reflexivity.
  - discriminate.
  - destruct (H 8%N [9%N] eq_refl) as [HPop _]; [discriminate|exact HPop].
Defined.

(** ** Order across interleaved calls *)

Lemma call_shared_fifo o s r s1 :
  call o s = Returns (r, s1) → without_hint o →
  local_items (contexts s) = [] → null ∉ mSharedWorkQueue (this s) →
  popped [(o, r)] ++ mSharedWorkQueue (this s1)
  = mSharedWorkQueue (this s) ++ pushed [(o, r)]
  ∧ local_items (contexts s1) = [].
Proof.
  intros H%call_inv Hhint Hlocal Hnull.
  pose proof (proj1 (local_items_nil _) Hlocal) as Hnil.
  assert (∀ c ctx ctx', contexts s !! c = Some ctx → mLocalWorkQueue ctx' = [] →
            local_items (<[c := ctx']> (contexts s)) = []) as Hins.
  { intros c ctx ctx' Hc Hq. apply local_items_nil.
    intros c1 ctx1 [[-> <-]|[_ Hc1]]%lookup_insert_Some; eauto. }
  destruct o; cbn [pushed popped].
  - destruct H as [-> (ctx & Hc & ->)%InitializeSharedContext_inv]. cbn.
    rewrite app_nil_r. split; [done|]. eapply Hins; [done|]. cbn. eauto.
  - destruct H as [-> (ctx & Hc & ->)%InitializeWorkerContext_inv]. cbn.
    rewrite app_nil_r. split; [done|]. eapply Hins; [done|]. cbn. eauto.
  - destruct H as [-> ->]. by rewrite app_nil_r.
  - destruct H as [-> ->]. by rewrite app_nil_r.
  - destruct H as (b & -> & [-> _]%Empty_inv). by rewrite app_nil_r.
  - destruct H as [-> ->]. by rewrite app_nil_r.
  - cbn in Hhint. subst localThread.
    by destruct H as [-> (ctx & Hc & [([=] & _)|(_ & _ & ->)])%Push_inv].
  - destruct H as (m & -> & (ctx & y & Hc & Hs & _ & Hcases)%Pop_inv).
    destruct Hcases as [(rest & Hq & _)|[(_ & _ & rest & Hw & ->)
                       |(-> & _ & _ & Hw & ->)]].
    + by rewrite (Hnil _ _ Hc) in Hq.
    + rewrite bool_decide_eq_true_2 by (rewrite Hw in Hnull; set_solver).
      cbn. rewrite Hw, app_nil_r. split; [done|]. by eapply Hins.
    + rewrite bool_decide_eq_false_2 by (by intros []).
      cbn. rewrite Hw. split; [done|]. by eapply Hins.
Qed.

(** X8.  Without local-affinity pushes the scheduler is one queue for all
    its workers: starting with empty local queues, the mailboxes returned by
    the successful pops of all contexts together, in call order, followed by
    what the shared queue still holds, are exactly the mailboxes the shared
    queue held followed by the pushed ones in push order, however the calls
    of the pushing and popping contexts interleave. *)
Theorem shared_queue_is_fifo_for_all ops s h s' :
  run ops s = Returns (h, s') →
  Forall without_hint ops →
  local_items (contexts s) = [] →
  null ∉ mSharedWorkQueue (this s) ++ pushed h →
  popped h ++ mSharedWorkQueue (this s')
  = mSharedWorkQueue (this s) ++ pushed h.
Proof.
  revert s h. induction ops as [|o ops IH]; intros s h Hrun Hhint Hlocal Hnull.
  - injection Hrun as <- <-. cbn. by rewrite app_nil_r.
  - apply run_cons_inv in Hrun as (r & s1 & h' & Ho & Hr & ->).
    apply Forall_cons in Hhint as [Hh Hhint].
    change ((o, r) :: h') with ([(o, r)] ++ h') in *.
    rewrite pushed_app in *. rewrite popped_app.
    destruct (call_shared_fifo _ _ _ _ Ho Hh Hlocal) as [Hstep Hlocal1];
      [set_solver|].
    rewrite (assoc_L (++) (mSharedWorkQueue (this s))), <- Hstep, <- !(assoc_L (++)).
    f_equal. apply IH; [done..|].
    intros [Hin|Hin]%elem_of_app; apply Hnull; [|set_solver].
    assert (null ∈ popped [(o, r)] ++ mSharedWorkQueue (this s1)) as Hin'
      by set_solver.
    rewrite Hstep in Hin'. set_solver.
Qed.

Lemma shared_queue_is_fifo_for_all_witness :
  ∃ h s',
    run [OpPush 0 1%N false; OpPop 2; OpPush 1 2%N false; OpPush 2 3%N false;
         OpPop 1; OpPop 2; OpPop 1; OpPush 0 4%N false] demo = Returns (h, s')
    ∧ popped h = [1%N; 2%N; 3%N] ∧ mSharedWorkQueue (this s') = [4%N]
    ∧ popped h ++ mSharedWorkQueue (this s')
      = mSharedWorkQueue (this demo) ++ pushed h.
Proof.
  eexists _, _. split; [vm_compute; reflexivity|].
  split; [reflexivity|]. split; [reflexivity|].
  eapply (shared_queue_is_fifo_for_all
            [OpPush 0 1%N false; OpPop 2; OpPush 1 2%N false; OpPush 2 3%N false;
             OpPop 1; OpPop 2; OpPop 1; OpPush 0 4%N false] demo).
  - vm_compute; reflexivity.
  - repeat constructor.
  - vm_compute; reflexivity.
  - apply (bool_decide_unpack (null ∉ [] ++ [1%N; 2%N; 3%N; 4%N])).
    vm_compute. exact I.
Defined.

Lemma pushed_by_cons c e h :
  pushed_by c (e :: h) = pushed_by c [e] ++ pushed_by c h.
Proof. destruct e as [[] r]; cbn; try done. by case_decide. Qed.

Lemma popped_by_cons c e h :
  popped_by c (e :: h) = popped_by c [e] ++ popped_by c h.
Proof. destruct e as [[] []]; cbn; try done. by case_decide. Qed.

Lemma call_local_fifo o s r s1 :
  call o s = Returns (r, s1) → local_traffic o →
  mSharedWorkQueue (this s) = [] →
  (∀ c ctx, contexts s !! c = Some ctx → mShared ctx = false) →
  null ∉ queued s →
  mSharedWorkQueue (this s1) = []
  ∧ (∀ c ctx, contexts s1 !! c = Some ctx → mShared ctx = false)
  ∧ ∀ c ctx1, contexts s1 !! c = Some ctx1 →
      ∃ ctx, contexts s !! c = Some ctx
             ∧ popped_by c [(o, r)] ++ mLocalWorkQueue ctx1
               = mLocalWorkQueue ctx ++ pushed_by c [(o, r)].
Proof.
  intros H%call_inv Htraffic Hw Hflags Hnull.
  assert (∀ c ctx1, contexts s !! c = Some ctx1 →
            ∃ ctx, contexts s !! c = Some ctx
                   ∧ [] ++ mLocalWorkQueue ctx1 = mLocalWorkQueue ctx ++ []) as Hsame.
  { intros c ctx1 Hc. exists ctx1. by rewrite app_nil_r. }
  destruct o; cbn [pushed_by popped_by].
  - destruct Htraffic.
  - destruct H as [-> (ctx & Hc & ->)%InitializeWorkerContext_inv]. cbn.
    split_and!; [done| |].
    + intros c ctx1 [[-> <-]|[_ Hc1]]%lookup_insert_Some; cbn; eauto.
    + intros c ctx1 [[-> <-]|[_ Hc1]]%lookup_insert_Some; [|by eauto].
      exists ctx. cbn. by rewrite app_nil_r.
  - destruct H as [-> ->]. eauto.
  - destruct H as [-> ->]. eauto.
  - destruct H as (b & -> & [-> _]%Empty_inv). eauto.
  - destruct H as [-> ->]. eauto.
  - cbn in Htraffic. subst localThread.
    destruct H as [-> (ctx & Hc & [(_ & Hs & ->)|(Hb & _)])%Push_inv];
      [|by rewrite (Hflags _ _ Hc) in Hb].
    cbn. split_and!; [done| |].
    + intros c ctx1 [[-> <-]|[_ Hc1]]%lookup_insert_Some; cbn; eauto.
    + intros c ctx1 [[-> <-]|[Hne Hc1]]%lookup_insert_Some.
      * exists ctx. by rewrite decide_True.
      * rewrite decide_False by done. eauto.
  - destruct H as (m & -> & (ctx & y & Hc & Hs & _ & Hcases)%Pop_inv).
    destruct Hcases as [(rest & Hq & ->)|[(_ & _ & rest & Hw' & _)
                       |(-> & Hq & _ & _ & ->)]]; [|congruence|].
    + assert (m ≠ null) as Hm.
      { intros ->. apply Hnull, elem_of_app. right.
        eapply local_items_elem; [done|]. rewrite Hq. set_solver. }
      cbn. split_and!; [done| |].
      * intros c ctx1 [[-> <-]|[_ Hc1]]%lookup_insert_Some; cbn; eauto.
      * intros c ctx1 [[-> <-]|[Hne Hc1]]%lookup_insert_Some.
        -- exists ctx. rewrite decide_True by done. cbn. by rewrite Hq, app_nil_r.
        -- rewrite decide_False by (by intros [? _]). eauto.
    + cbn. split_and!; [done| |].
      * intros c ctx1 [[-> <-]|[_ Hc1]]%lookup_insert_Some; cbn; eauto.
      * intros c ctx1 [[-> <-]|[Hne Hc1]]%lookup_insert_Some.
        -- exists ctx. rewrite decide_False by (by intros [_ []]).
           cbn. by rewrite Hq.
        -- rewrite decide_False by (by intros [_ []]). eauto.
Qed.

(** X9.  With local-affinity pushes only, every context is a queue of its
    own: when the shared queue starts empty and no context is the shared
    context, the mailboxes a context has popped, in call order, followed by
    what its queue still holds, are exactly what its queue held followed by
    the mailboxes pushed through it in push order, however its calls
    interleave with those of the other contexts; and the shared queue stays
    empty. *)
Theorem local_queues_are_fifo ops s h s' :
  run ops s = Returns (h, s') →
  Forall local_traffic ops →
  mSharedWorkQueue (this s) = [] →
  (∀ c ctx, contexts s !! c = Some ctx → mShared ctx = false) →
  null ∉ queued s ++ pushed h →
  mSharedWorkQueue (this s') = []
  ∧ ∀ c ctx', contexts s' !! c = Some ctx' →
      ∃ ctx, contexts s !! c = Some ctx
             ∧ popped_by c h ++ mLocalWorkQueue ctx'
               = mLocalWorkQueue ctx ++ pushed_by c h.
Proof.
  revert s h. induction ops as [|o ops IH]; intros s h Hrun Htraffic Hw Hflags Hnull.
  - injection Hrun as <- <-. split; [done|]. intros c ctx' Hc. exists ctx'.
    cbn. by rewrite app_nil_r.
  - apply run_cons_inv in Hrun as (r & s1 & h' & Ho & Hr & ->).
    apply Forall_cons in Htraffic as [Ht Htraffic].
    assert (null ∉ queued s) as Hnull0 by set_solver.
    destruct (call_local_fifo _ _ _ _ Ho Ht Hw Hflags Hnull0) as (Hw1 & Hflags1 & Hstep).
    assert (null ∉ queued s1 ++ pushed h') as Hnull1.
    { pose proof (call_conserves _ _ _ _ Ho Hnull0) as Hperm.
      change ((o, r) :: h') with ([(o, r)] ++ h') in Hnull.
      rewrite pushed_app in Hnull.
      intros [Hin|Hin]%elem_of_app; apply Hnull; [|set_solver].
      assert (null ∈ popped [(o, r)] ++ queued s1) as Hin' by set_solver.
      rewrite <- Hperm in Hin'. set_solver. }
    destruct (IH _ _ Hr Htraffic Hw1 Hflags1 Hnull1) as [Hw' Hrest].
    split; [done|]. intros c ctx' Hc'.
    destruct (Hrest _ _ Hc') as (ctx1 & Hc1 & Heq1).
    destruct (Hstep _ _ Hc1) as (ctx & Hc & Heq).
    exists ctx. split; [done|].
    rewrite popped_by_cons, pushed_by_cons, <- (assoc_L (++)), Heq1.
    by rewrite !(assoc_L (++)), Heq.
Qed.

Lemma local_queues_are_fifo_witness :
  ∃ h s',
    run [OpPush 1 1%N true; OpPush 2 7%N true; OpPop 1; OpPush 1 2%N true;
         OpPop 2; OpPush 1 3%N true; OpPop 1; OpPop 2]
        (final (run [OpInitializeWorkerContext 1; OpInitializeWorkerContext 2]
                    (fresh YIELD_STRATEGY_POLITE {[1; 2]}))
               (fresh YIELD_STRATEGY_POLITE ∅)) = Returns (h, s')
    ∧ popped_by 1 h = [1%N; 2%N]
    ∧ ∀ c ctx', contexts s' !! c = Some ctx' →
        ∃ ctx,
          contexts (final (run [OpInitializeWorkerContext 1; OpInitializeWorkerContext 2]
                               (fresh YIELD_STRATEGY_POLITE {[1; 2]}))
                          (fresh YIELD_STRATEGY_POLITE ∅)) !! c = Some ctx
          ∧ popped_by c h ++ mLocalWorkQueue ctx'
            = mLocalWorkQueue ctx ++ pushed_by c h.
Proof.
  eexists _, _. split; [vm_compute; reflexivity|]. split; [reflexivity|].
  eapply (local_queues_are_fifo
            [OpPush 1 1%N true; OpPush 2 7%N true; OpPop 1; OpPush 1 2%N true;
             OpPop 2; OpPush 1 3%N true; OpPop 1; OpPop 2]).
  - vm_compute; reflexivity.
  - repeat constructor.
  - reflexivity.
  - apply (bool_decide_unpack
             (map_Forall (λ (_ : addr) ctx, mShared ctx = false) _)).
    vm_compute. exact I.
  - apply (bool_decide_unpack (null ∉ [] ++ [1%N; 7%N; 2%N; 3%N])).
    vm_compute. exact I.
Defined.
